(** * PlinkoGame: the on-chain turn / check-in / score ledger

    A shallow embedding of the Solidity contract [PlinkoGame]
    (pragma ^0.8.24) and proofs of its ledger properties.

    Conventions of the embedding:
    - [uint256] values are integers in [Z]; Solidity 0.8 arithmetic is
      checked, so [+], [*], [--] and [++] revert with [Panic 0x11] when the
      result leaves the range [0 .. 2^256-1];
    - [mapping(address => Player)] is a finite map read with a zero default;
    - an external call runs in a state-and-failure monad over the contract
      state and the event log; a failure anywhere discards every write of
      the call, as the EVM does on revert;
    - the confidential-compute library ([FHE.fromExternal], [FHE.add]) and
      the acceptance of ether by a recipient are supplied by the chain the
      contract is deployed on, see [Chain]. *)

From stdpp Require Import base numbers option list gmap strings.
From Stdlib Require Import ZArith Lia Permutation.

Local Open Scope Z_scope.

(** ** Solidity value types *)

Definition address := Z.
Definition bytes32 := Z.

(** [euint32] is a handle on a ciphertext held by the coprocessor. *)
Definition euint32 := bytes32.
Definition externalEuint32 := bytes32.

Definition MAX_UINT256 : Z := 2 ^ 256 - 1.

Definition is_uint256 (x : Z) : Prop := 0 <= x <= MAX_UINT256.
Definition is_address (a : address) : Prop := 0 <= a < 2 ^ 160.

(** ** Failures of a call *)

Inductive Failure : Type :=
| Revert (reason : string)   (* a failed [require(cond, reason)] *)
| Panic (code : Z)           (* 0x11 arithmetic overflow, 0x32 index out of bounds *)
| InvalidProof               (* [FHE.fromExternal] refused the input proof *)
| TransferFailed.            (* [payable(a).transfer(v)] was refused by [a] *)

Inductive Result (A : Type) : Type :=
| Ok (a : A)
| Err (f : Failure).
Arguments Ok {A} a.
Arguments Err {A} f.

Definition rbind {A B : Type} (r : Result A) (k : A -> Result B) : Result B :=
  match r with
  | Ok a => k a
  | Err f => Err f
  end.

(** ** Checked arithmetic of Solidity 0.8 *)

Definition checked_add (a b : Z) : Result Z :=
  if a + b <=? MAX_UINT256 then Ok (a + b) else Err (Panic 0x11).

Definition checked_mul (a b : Z) : Result Z :=
  if a * b <=? MAX_UINT256 then Ok (a * b) else Err (Panic 0x11).

Definition checked_sub (a b : Z) : Result Z :=
  if b <=? a then Ok (a - b) else Err (Panic 0x11).

(** ** Constants of the contract *)

(** [0.001 ether], in wei. *)
Definition TURN_PRICE : Z := 1000000000000000.
Definition DAILY_FREE_TURNS : Z := 3.
Definition SECONDS_PER_DAY : Z := 86400.

(** ** Data model *)

Record Player : Type := mkPlayer {
  totalScore : euint32;
  lastCheckInTime : Z;
  availableTurns : Z;
  gamesPlayed : Z
}.

(** The value every key of a Solidity mapping holds before it is written. *)
Definition zero_player : Player :=
  {| totalScore := 0; lastCheckInTime := 0; availableTurns := 0; gamesPlayed := 0 |}.

Definition set_totalScore (v : euint32) (p : Player) : Player :=
  {| totalScore := v; lastCheckInTime := lastCheckInTime p;
     availableTurns := availableTurns p; gamesPlayed := gamesPlayed p |}.

Definition set_lastCheckInTime (v : Z) (p : Player) : Player :=
  {| totalScore := totalScore p; lastCheckInTime := v;
     availableTurns := availableTurns p; gamesPlayed := gamesPlayed p |}.

Definition set_availableTurns (v : Z) (p : Player) : Player :=
  {| totalScore := totalScore p; lastCheckInTime := lastCheckInTime p;
     availableTurns := v; gamesPlayed := gamesPlayed p |}.

Definition set_gamesPlayed (v : Z) (p : Player) : Player :=
  {| totalScore := totalScore p; lastCheckInTime := lastCheckInTime p;
     availableTurns := availableTurns p; gamesPlayed := v |}.

Module LeaderboardEntry.
Record t : Type := mk {
  playerAddress : address;
  gamesPlayed : Z
}.
Definition zero : t := {| playerAddress := 0; gamesPlayed := 0 |}.
End LeaderboardEntry.

Inductive Event : Type :=
| CheckedIn (player : address) (turnsGranted timestamp : Z)
| TurnsPurchased (player : address) (turnsBought amountPaid : Z)
| GamePlayed (player : address) (turnsRemaining : Z)
| ScoreUpdated (player : address) (games : Z)
| Withdrawal (to : address) (amount : Z).

(** The state a call can change: the three storage variables of the
    contract, the ether it holds, and the access-control list of the
    coprocessor (which handle may be decrypted by which account). *)
Record State : Type := mkState {
  players : gmap address Player;
  playerAddresses : list address;
  owner : address;
  balance : Z;
  acl : list (euint32 * address)
}.

Definition player_at (s : State) (a : address) : Player :=
  default zero_player (players s !! a).

Definition set_players (m : gmap address Player) (s : State) : State :=
  {| players := m; playerAddresses := playerAddresses s; owner := owner s;
     balance := balance s; acl := acl s |}.

Definition set_playerAddresses (l : list address) (s : State) : State :=
  {| players := players s; playerAddresses := l; owner := owner s;
     balance := balance s; acl := acl s |}.

Definition set_owner (a : address) (s : State) : State :=
  {| players := players s; playerAddresses := playerAddresses s; owner := a;
     balance := balance s; acl := acl s |}.

Definition set_balance (v : Z) (s : State) : State :=
  {| players := players s; playerAddresses := playerAddresses s; owner := owner s;
     balance := v; acl := acl s |}.

Definition set_acl (l : list (euint32 * address)) (s : State) : State :=
  {| players := players s; playerAddresses := playerAddresses s; owner := owner s;
     balance := balance s; acl := l |}.

(** ** The chain the contract runs on *)

Class Chain : Type := {
  (** [address(this)] *)
  this : address;
  (** [FHE.fromExternal(handle, proof)] as called by [sender]: the internal
      handle, or nothing when the proof does not validate *)
  FHE_fromExternal : address -> externalEuint32 -> list Z -> option euint32;
  (** [FHE.add(a, b)]: the handle of the homomorphic sum *)
  FHE_add : euint32 -> euint32 -> euint32;
  (** whether a plain transfer of ether to the account goes through *)
  accepts_ether : address -> bool
}.

(** A chain whose coprocessor works on clear 32-bit values: used to run the
    contract on concrete inputs. *)
Definition clear_chain : Chain := {|
  this := 4919;
  FHE_fromExternal := fun _ h _ => Some (h mod 2 ^ 32);
  FHE_add := fun a b => (a + b) mod 2 ^ 32;
  accepts_ether := fun _ => true
|}.

(** ** The execution monad of a call *)

Definition Exec (A : Type) : Type :=
  State -> list Event -> Result (A * State * list Event).

Definition ret {A : Type} (a : A) : Exec A :=
  fun s l => Ok (a, s, l).

Definition bind {A B : Type} (c : Exec A) (k : A -> Exec B) : Exec B :=
  fun s l =>
    match c s l with
    | Ok (a, s', l') => k a s' l'
    | Err f => Err f
    end.

Notation "'let*' x ':=' c 'in' k" := (bind c (fun x => k))
  (at level 10, x name, c at level 100, k at level 200).
Notation "c1 ';;;' c2" := (bind c1 (fun _ => c2))
  (at level 100, c2 at level 200, right associativity).

Definition fail {A : Type} (f : Failure) : Exec A :=
  fun _ _ => Err f.

Definition lift {A : Type} (r : Result A) : Exec A :=
  fun s l => match r with Ok a => Ok (a, s, l) | Err f => Err f end.

Definition require (cond : bool) (reason : string) : Exec unit :=
  if cond then ret tt else fail (Revert reason).

Definition when (cond : bool) (c : Exec unit) : Exec unit :=
  if cond then c else ret tt.

Definition get : Exec State :=
  fun s l => Ok (s, s, l).

Definition modify (f : State -> State) : Exec unit :=
  fun s l => Ok (tt, f s, l).

Definition emit (e : Event) : Exec unit :=
  fun s l => Ok (tt, s, l ++ [e]).

(** Reads and writes through the storage pointer
    [Player storage player = players[a]]: [sload a field] is the current
    value of [player.field], [sstore a (set_field v)] is [player.field = v]. *)
Definition sload {A : Type} (a : address) (field : Player -> A) : Exec A :=
  let* s := get in ret (field (player_at s a)).

Definition sstore (a : address) (f : Player -> Player) : Exec unit :=
  modify (fun s => set_players (<[a := f (player_at s a)]> (players s)) s).

(** [playerAddresses.push(a)] *)
Definition push_playerAddress (a : address) : Exec unit :=
  modify (fun s => set_playerAddresses (playerAddresses s ++ [a]) s).

(** ** Calls *)

Record Env : Type := mkEnv {
  msg_sender : address;
  block_timestamp : Z
}.

(** The external entry points that write.  Only [buyTurns] is [payable]:
    it alone carries an attached payment ([msg.value]). *)
Inductive Call : Type :=
| DailyCheckIn
| BuyTurns (turnCount : Z) (msg_value : Z)
| DropBall (encryptedScore : externalEuint32) (inputProof : list Z)
| PlayTurn
| Withdraw
| TransferOwnership (newOwner : address).

Record Tx : Type := mkTx {
  tx_env : Env;
  tx_call : Call
}.

Section Contract.
Context {chain : Chain}.

Definition constructor (deployer : address) : State :=
  {| players := ∅; playerAddresses := []; owner := deployer; balance := 0; acl := [] |}.

Definition onlyOwner (e : Env) : Exec unit :=
  let* s := get in
  require (msg_sender e =? owner s) "Only owner can call this function".

Definition dailyCheckIn (e : Env) : Exec unit :=
  let player := msg_sender e in
  let* last := sload player lastCheckInTime in
  let* due := lift (checked_add last SECONDS_PER_DAY) in
  require (due <=? block_timestamp e) "Already checked in today" ;;;
  let* last := sload player lastCheckInTime in
  when (last =? 0) (push_playerAddress (msg_sender e)) ;;;
  let* turns := sload player availableTurns in
  let* turns := lift (checked_add turns DAILY_FREE_TURNS) in
  sstore player (set_availableTurns turns) ;;;
  sstore player (set_lastCheckInTime (block_timestamp e)) ;;;
  emit (CheckedIn (msg_sender e) DAILY_FREE_TURNS (block_timestamp e)).

Definition buyTurns (e : Env) (turnCount msg_value : Z) : Exec unit :=
  (* the attached payment is credited before the body runs *)
  modify (fun s => set_balance (balance s + msg_value) s) ;;;
  require (0 <? turnCount) "Must buy at least 1 turn" ;;;
  let* price := lift (checked_mul turnCount TURN_PRICE) in
  require (msg_value =? price) "Incorrect payment amount" ;;;
  let player := msg_sender e in
  let* last := sload player lastCheckInTime in
  when (last =? 0)
    (push_playerAddress (msg_sender e) ;;;
     sstore player (set_lastCheckInTime 1)) ;;;
  let* turns := sload player availableTurns in
  let* turns := lift (checked_add turns turnCount) in
  sstore player (set_availableTurns turns) ;;;
  emit (TurnsPurchased (msg_sender e) turnCount msg_value).

Definition dropBall (e : Env) (encryptedScore : externalEuint32)
    (inputProof : list Z) : Exec unit :=
  let player := msg_sender e in
  let* turns := sload player availableTurns in
  require (0 <? turns) "No turns available" ;;;
  let* score :=
    match FHE_fromExternal (msg_sender e) encryptedScore inputProof with
    | Some h => ret h
    | None => fail InvalidProof
    end in
  let* total := sload player totalScore in
  sstore player (set_totalScore (FHE_add total score)) ;;;
  let* turns := sload player availableTurns in
  let* turns := lift (checked_sub turns 1) in
  sstore player (set_availableTurns turns) ;;;
  let* games := sload player gamesPlayed in
  let* games := lift (checked_add games 1) in
  sstore player (set_gamesPlayed games) ;;;
  let* total := sload player totalScore in
  modify (fun s => set_acl (acl s ++ [(total, this)]) s) ;;;
  let* total := sload player totalScore in
  modify (fun s => set_acl (acl s ++ [(total, msg_sender e)]) s) ;;;
  let* turns := sload player availableTurns in
  emit (GamePlayed (msg_sender e) turns) ;;;
  let* games := sload player gamesPlayed in
  emit (ScoreUpdated (msg_sender e) games).

Definition playTurn (e : Env) : Exec unit :=
  let player := msg_sender e in
  let* turns := sload player availableTurns in
  require (0 <? turns) "No turns available" ;;;
  let* turns := sload player availableTurns in
  let* turns := lift (checked_sub turns 1) in
  sstore player (set_availableTurns turns) ;;;
  let* games := sload player gamesPlayed in
  let* games := lift (checked_add games 1) in
  sstore player (set_gamesPlayed games) ;;;
  let* turns := sload player availableTurns in
  emit (GamePlayed (msg_sender e) turns) ;;;
  let* games := sload player gamesPlayed in
  emit (ScoreUpdated (msg_sender e) games).

Definition withdraw (e : Env) : Exec unit :=
  onlyOwner e ;;;
  let* s := get in
  let amount := balance s in
  require (0 <? amount) "No balance to withdraw" ;;;
  (if accepts_ether (owner s)
   then modify (fun s' => set_balance (balance s' - amount) s')
   else fail TransferFailed) ;;;
  emit (Withdrawal (owner s) amount).

Definition transferOwnership (e : Env) (newOwner : address) : Exec unit :=
  onlyOwner e ;;;
  require (negb (newOwner =? 0)) "Invalid new owner address" ;;;
  modify (set_owner newOwner).

Definition dispatch (e : Env) (c : Call) : Exec unit :=
  match c with
  | DailyCheckIn => dailyCheckIn e
  | BuyTurns turnCount msg_value => buyTurns e turnCount msg_value
  | DropBall encryptedScore inputProof => dropBall e encryptedScore inputProof
  | PlayTurn => playTurn e
  | Withdraw => withdraw e
  | TransferOwnership newOwner => transferOwnership e newOwner
  end.

(** What a transaction leaves behind.  A failed call keeps the state it
    started from and logs nothing. *)
Record Receipt : Type := mkReceipt {
  failure : option Failure;
  post : State;
  logs : list Event
}.

Definition transact (s : State) (tx : Tx) : Receipt :=
  match dispatch (tx_env tx) (tx_call tx) s [] with
  | Ok (_, s', l) => {| failure := None; post := s'; logs := l |}
  | Err f => {| failure := Some f; post := s; logs := [] |}
  end.

Definition succeeds (s : State) (tx : Tx) : Prop := failure (transact s tx) = None.
Definition rejects (s : State) (tx : Tx) : Prop := failure (transact s tx) <> None.

Definition call (sender : address) (now : Z) (c : Call) : Tx :=
  {| tx_env := {| msg_sender := sender; block_timestamp := now |}; tx_call := c |}.

End Contract.

(** ** Read-only entry points *)

Definition getPlayerScore (s : State) (playerAddress : address) : euint32 :=
  totalScore (player_at s playerAddress).

Definition getPlayerInfo (s : State) (playerAddress : address) : Z * Z * Z :=
  let player := player_at s playerAddress in
  (lastCheckInTime player, availableTurns player, gamesPlayed player).

Definition getTotalPlayers (s : State) : Z :=
  Z.of_nat (length (playerAddresses s)).

Definition canCheckIn (s : State) (now : Z) (playerAddress : address) : Result bool :=
  let player := player_at s playerAddress in
  rbind (checked_add (lastCheckInTime player) SECONDS_PER_DAY)
        (fun due => Ok (due <=? now)).

Definition getBalance (s : State) : Z := balance s.

(** *** The leaderboard

    [LeaderboardEntry[] memory] is an array of references to structs: the
    assignment [leaderboard[i] = leaderboard[j]] copies a reference, and
    [temp] keeps the reference that slot [i] held.  The structs live in
    [heap], the array is [slots]. *)

Notation "'let?' x ':=' r 'in' k" := (rbind r (fun x => k))
  (at level 10, x name, r at level 100, k at level 200).

Definition ref := nat.

Record Memory : Type := mkMemory {
  heap : list LeaderboardEntry.t;
  slots : list ref
}.

Definition deref (m : Memory) (r : ref) : LeaderboardEntry.t :=
  default LeaderboardEntry.zero (heap m !! r).

(** [new LeaderboardEntry[](n)]: [n] slots, each on a zero-valued struct. *)
Definition new_array (n : nat) : Memory :=
  {| heap := replicate n LeaderboardEntry.zero; slots := seq 0 n |}.

(** [LeaderboardEntry({...})] in memory: a fresh struct and its reference. *)
Definition alloc (e : LeaderboardEntry.t) (m : Memory) : ref * Memory :=
  (length (heap m), {| heap := heap m ++ [e]; slots := slots m |}).

(** [leaderboard[i]] read and written; an index out of range panics. *)
Definition mload (m : Memory) (i : nat) : Result ref :=
  match slots m !! i with
  | Some r => Ok r
  | None => Err (Panic 0x32)
  end.

Definition mstore (m : Memory) (i : nat) (r : ref) : Result Memory :=
  if decide (i < length (slots m))%nat
  then Ok {| heap := heap m; slots := <[i := r]> (slots m) |}
  else Err (Panic 0x32).

(** [playerAddresses[i]] *)
Definition sload_address (s : State) (i : nat) : Result address :=
  match playerAddresses s !! i with
  | Some a => Ok a
  | None => Err (Panic 0x32)
  end.

(** [for (uint256 i = lo; i < hi; i++) body]: the counter stays below an
    array length, so [i++] cannot overflow. *)
Fixpoint for_range {A : Type} (first count : nat)
    (body : nat -> A -> Result A) (a : A) : Result A :=
  match count with
  | O => Ok a
  | S k => let? a' := body first a in for_range (S first) k body a'
  end.

Definition for_loop {A : Type} (lo hi : nat)
    (body : nat -> A -> Result A) (a : A) : Result A :=
  for_range lo (hi - lo) body a.

Definition entry_of (s : State) (a : address) : LeaderboardEntry.t :=
  {| LeaderboardEntry.playerAddress := a;
     LeaderboardEntry.gamesPlayed := gamesPlayed (player_at s a) |}.

Definition fill_entry (s : State) (i : nat) (leaderboard : Memory) : Result Memory :=
  let? playerAddr := sload_address s i in
  let (r, leaderboard) := alloc (entry_of s playerAddr) leaderboard in
  mstore leaderboard i r.

Definition compare_swap (i j : nat) (leaderboard : Memory) : Result Memory :=
  let? ri := mload leaderboard i in
  let? rj := mload leaderboard j in
  if LeaderboardEntry.gamesPlayed (deref leaderboard ri)
     <? LeaderboardEntry.gamesPlayed (deref leaderboard rj)
  then
    let? temp := mload leaderboard i in
    let? rj := mload leaderboard j in
    let? leaderboard := mstore leaderboard i rj in
    mstore leaderboard j temp
  else Ok leaderboard.

Definition sort_pass (playerCount : nat) (leaderboard : Memory) : Result Memory :=
  for_loop 0 playerCount
    (fun i leaderboard => for_loop (i + 1) playerCount (compare_swap i) leaderboard)
    leaderboard.

Definition getLeaderboard (s : State) : Result (list LeaderboardEntry.t) :=
  let playerCount := length (playerAddresses s) in
  let leaderboard := new_array playerCount in
  let? leaderboard := for_loop 0 playerCount (fill_entry s) leaderboard in
  let? leaderboard := sort_pass playerCount leaderboard in
  Ok (map (deref leaderboard) (slots leaderboard)).

(** ** Histories *)

Definition wf_call (c : Call) : Prop :=
  match c with
  | BuyTurns turnCount msg_value => is_uint256 turnCount /\ is_uint256 msg_value
  | DropBall encryptedScore _ => is_uint256 encryptedScore
  | TransferOwnership newOwner => is_address newOwner
  | _ => True
  end.

Definition wf_tx (tx : Tx) : Prop :=
  is_address (msg_sender (tx_env tx)) /\
  is_uint256 (block_timestamp (tx_env tx)) /\
  wf_call (tx_call tx).

Definition sent_by (a : address) (tx : Tx) : bool :=
  msg_sender (tx_env tx) =? a.

Definition is_check_in (tx : Tx) : bool :=
  match tx_call tx with DailyCheckIn => true | _ => false end.

Definition is_purchase (tx : Tx) : bool :=
  match tx_call tx with BuyTurns _ _ => true | _ => false end.

Definition is_join (a : address) (tx : Tx) : bool :=
  sent_by a tx && (is_check_in tx || is_purchase tx).

Section Histories.
Context {chain : Chain}.

Fixpoint run (s : State) (txs : list Tx) : State :=
  match txs with
  | [] => s
  | tx :: rest => run (post (transact s tx)) rest
  end.

Definition accepted (s : State) (tx : Tx) : bool :=
  match failure (transact s tx) with
  | None => true
  | Some _ => false
  end.

(** Whether some transaction selected by [P] is accepted along a history. *)
Fixpoint accepted_some (P : Tx -> bool) (s : State) (txs : list Tx) : bool :=
  match txs with
  | [] => false
  | tx :: rest =>
      (P tx && accepted s tx) || accepted_some P (post (transact s tx)) rest
  end.

(** The states of a deployed contract: whatever a deployment followed by
    any well-formed transactions, accepted or refused, can produce. *)
Definition reachable (s : State) : Prop :=
  exists (deployer : address) (txs : list Tx),
    is_address deployer /\ Forall wf_tx txs /\ s = run (constructor deployer) txs.

(** [a] has joined: one of its check-ins or purchases was accepted. *)
Definition joined (a : address) : State -> list Tx -> bool :=
  accepted_some (is_join a).

(** [a] has acted: one of its calls, of any kind, was accepted. *)
Definition acted (a : address) : State -> list Tx -> bool :=
  accepted_some (sent_by a).

Definition checked_in_during (a : address) : State -> list Tx -> bool :=
  accepted_some (fun tx => sent_by a tx && is_check_in tx).

End Histories.

(** ** What an accepted call does *)

Section Effects.
Context {chain : Chain}.

(** The state after an accepted [dailyCheckIn]. *)
Definition checked_in (e : Env) (s : State) : State :=
  let p := player_at s (msg_sender e) in
  {| players :=
       <[msg_sender e :=
           set_lastCheckInTime (block_timestamp e)
             (set_availableTurns (availableTurns p + DAILY_FREE_TURNS) p)]> (players s);
     playerAddresses :=
       if lastCheckInTime p =? 0
       then playerAddresses s ++ [msg_sender e] else playerAddresses s;
     owner := owner s; balance := balance s; acl := acl s |}.

(** The state after an accepted [buyTurns]. *)
Definition bought (e : Env) (turnCount msg_value : Z) (s : State) : State :=
  let p := player_at s (msg_sender e) in
  {| players :=
       <[msg_sender e :=
           set_availableTurns (availableTurns p + turnCount)
             (if lastCheckInTime p =? 0 then set_lastCheckInTime 1 p else p)]> (players s);
     playerAddresses :=
       if lastCheckInTime p =? 0
       then playerAddresses s ++ [msg_sender e] else playerAddresses s;
     owner := owner s; balance := balance s + msg_value; acl := acl s |}.

(** The record of the caller after an accepted play. *)
Definition played_record (p : Player) : Player :=
  set_gamesPlayed (gamesPlayed p + 1) (set_availableTurns (availableTurns p - 1) p).

Definition played (e : Env) (s : State) : State :=
  set_players (<[msg_sender e := played_record (player_at s (msg_sender e))]> (players s)) s.

(** The state after an accepted [dropBall] that was given the internal
    handle [score]. *)
Definition dropped (e : Env) (score : euint32) (s : State) : State :=
  let p := player_at s (msg_sender e) in
  let total := FHE_add (totalScore p) score in
  {| players := <[msg_sender e := played_record (set_totalScore total p)]> (players s);
     playerAddresses := playerAddresses s; owner := owner s; balance := balance s;
     acl := acl s ++ [(total, this)] ++ [(total, msg_sender e)] |}.

(** What an accepted call has checked and done. *)
Definition effect_of (s : State) (e : Env) (c : Call) (s' : State) (l : list Event) : Prop :=
  let p := player_at s (msg_sender e) in
  match c with
  | DailyCheckIn =>
      lastCheckInTime p + SECONDS_PER_DAY <= block_timestamp e /\
      availableTurns p + DAILY_FREE_TURNS <= MAX_UINT256 /\
      s' = checked_in e s /\
      l = [CheckedIn (msg_sender e) DAILY_FREE_TURNS (block_timestamp e)]
  | BuyTurns turnCount msg_value =>
      0 < turnCount /\
      msg_value = turnCount * TURN_PRICE /\
      turnCount * TURN_PRICE <= MAX_UINT256 /\
      availableTurns p + turnCount <= MAX_UINT256 /\
      s' = bought e turnCount msg_value s /\
      l = [TurnsPurchased (msg_sender e) turnCount msg_value]
  | DropBall encryptedScore inputProof =>
      0 < availableTurns p /\
      gamesPlayed p + 1 <= MAX_UINT256 /\
      (exists score,
          FHE_fromExternal (msg_sender e) encryptedScore inputProof = Some score /\
          s' = dropped e score s) /\
      l = [GamePlayed (msg_sender e) (availableTurns p - 1);
           ScoreUpdated (msg_sender e) (gamesPlayed p + 1)]
  | PlayTurn =>
      0 < availableTurns p /\
      gamesPlayed p + 1 <= MAX_UINT256 /\
      s' = played e s /\
      l = [GamePlayed (msg_sender e) (availableTurns p - 1);
           ScoreUpdated (msg_sender e) (gamesPlayed p + 1)]
  | Withdraw =>
      msg_sender e = owner s /\
      0 < balance s /\
      accepts_ether (owner s) = true /\
      s' = set_balance (balance s - balance s) s /\
      l = [Withdrawal (owner s) (balance s)]
  | TransferOwnership newOwner =>
      msg_sender e = owner s /\
      newOwner <> 0 /\
      s' = set_owner newOwner s /\
      l = []
  end.

End Effects.

(** ** What a chain can feed the contract

    [block.timestamp] is Unix time in seconds: a block is dated by the wall
    clock of its proposer, past the first day of 1970. *)
Definition is_block_timestamp (t : Z) : Prop :=
  SECONDS_PER_DAY < t <= MAX_UINT256.

(** [msg.value] is ether that exists: all the ether in circulation is below
    [2^87] wei, and [2^128] wei bounds whatever a call can attach. *)
Definition ETHER_SUPPLY : Z := 2 ^ 128.

Definition is_payment (v : Z) : Prop := 0 <= v <= ETHER_SUPPLY.

(** A bound on the number of transactions a contract ever receives. *)
Definition HISTORY_BOUND : Z := 2 ^ 64.

Definition feasible_tx (tx : Tx) : Prop :=
  match tx_call tx with
  | BuyTurns _ msg_value => is_payment msg_value
  | _ => True
  end.

(** The histories a chain can produce: payments within the ether there is,
    and no more transactions than a chain can hold. *)
Definition feasible (txs : list Tx) : Prop :=
  Z.of_nat (length txs) <= HISTORY_BOUND /\ Forall feasible_tx txs.

(** ** The ledger invariant *)

Definition ledger_inv (s : State) : Prop :=
  NoDup (playerAddresses s) /\
  forall a : address,
    let p := player_at s a in
    0 <= lastCheckInTime p /\
    (a ∈ playerAddresses s <-> lastCheckInTime p <> 0) /\
    (lastCheckInTime p = 0 -> availableTurns p = 0 /\ gamesPlayed p = 0).

(** ** The claims of the specification *)

Definition is_play (c : Call) : Prop :=
  match c with
  | PlayTurn | DropBall _ _ => True
  | _ => False
  end.

(** The faults the ledger is specified to refuse. *)
Definition listed_fault (s : State) (tx : Tx) : Prop :=
  let e := tx_env tx in
  let p := player_at s (msg_sender e) in
  match tx_call tx with
  | DailyCheckIn => block_timestamp e < lastCheckInTime p + SECONDS_PER_DAY
  | BuyTurns turnCount msg_value =>
      turnCount = 0 \/ msg_value <> turnCount * TURN_PRICE
  | DropBall _ _ | PlayTurn => availableTurns p = 0
  | Withdraw => msg_sender e <> owner s \/ balance s = 0
  | TransferOwnership newOwner => msg_sender e <> owner s \/ newOwner = 0
  end.

Section Claims.
Context {chain : Chain}.

(** Whether the coprocessor accepts the input a play comes with: [dropBall]
    carries an encrypted score and its proof, [playTurn] carries nothing. *)
Definition input_verifies (sender : address) (c : Call) : Prop :=
  match c with
  | DropBall encryptedScore inputProof =>
      is_Some (FHE_fromExternal sender encryptedScore inputProof)
  | _ => True
  end.

End Claims.

Definition descending (lb : list LeaderboardEntry.t) : Prop :=
  forall (p q : nat) (x y : LeaderboardEntry.t),
    (p < q)%nat -> lb !! p = Some x -> lb !! q = Some y ->
    LeaderboardEntry.gamesPlayed y <= LeaderboardEntry.gamesPlayed x.

(** Entries with equal [gamesPlayed] appear in the order in which their
    addresses entered the registry. *)
Definition ties_in_registry_order (registry : list address)
    (lb : list LeaderboardEntry.t) : Prop :=
  forall (p q : nat) (x y : LeaderboardEntry.t),
    (p < q)%nat -> lb !! p = Some x -> lb !! q = Some y ->
    LeaderboardEntry.gamesPlayed x = LeaderboardEntry.gamesPlayed y ->
    exists i j : nat,
      (i < j)%nat /\
      registry !! i = Some (LeaderboardEntry.playerAddress x) /\
      registry !! j = Some (LeaderboardEntry.playerAddress y).

(** ** The sort on the array of references *)

(** One exchange of the sort on the array of references, [key] reading the
    [gamesPlayed] of the struct behind a reference. *)
Definition exchange (key : ref -> Z) (i j : nat) (l : list ref) : list ref :=
  match l !! i, l !! j with
  | Some ri, Some rj => if key ri <? key rj then <[j := ri]> (<[i := rj]> l) else l
  | _, _ => l
  end.

Definition key_of (h : list LeaderboardEntry.t) (r : ref) : Z :=
  LeaderboardEntry.gamesPlayed (default LeaderboardEntry.zero (h !! r)).

(** The sorted prefix: every slot before [i] holds a key that no later slot
    exceeds. *)
Definition settled (key : ref -> Z) (i : nat) (l : list ref) : Prop :=
  forall (p q : nat) (x y : ref),
    (p < i)%nat -> (p < q)%nat -> l !! p = Some x -> l !! q = Some y -> key y <= key x.

(** Slot [i] dominates the slots strictly between [i] and [j]. *)
Definition leads (key : ref -> Z) (i j : nat) (l : list ref) : Prop :=
  forall (q : nat) (x y : ref),
    (i < q < j)%nat -> l !! i = Some x -> l !! q = Some y -> key y <= key x.

(** ** Concrete accounts and histories *)

Definition house : address := 1.

Definition max_purchase : Z := MAX_UINT256 / TURN_PRICE.

Definition alice : address := 10.
Definition bob : address := 11.
Definition carol : address := 12.

(** Three accounts check in; alice and bob play once, carol twice. *)
Definition tied_history : list Tx :=
  [call alice 100000 DailyCheckIn;
   call bob 100000 DailyCheckIn;
   call carol 100000 DailyCheckIn;
   call alice 100001 PlayTurn;
   call bob 100002 PlayTurn;
   call carol 100003 PlayTurn;
   call carol 100004 PlayTurn].

Definition tied : State := run (chain := clear_chain) (constructor house) tied_history.

(** A first purchase, and the state it leaves. *)
Definition first_purchase : Tx := call alice 1700000000 (BuyTurns 1 TURN_PRICE).

Definition purchased : State :=
  post (transact (chain := clear_chain) (constructor house) first_purchase).

(** ** Counting along a history *)

Definition is_play_tx (tx : Tx) : bool :=
  match tx_call tx with PlayTurn | DropBall _ _ => true | _ => false end.

Definition is_drop (tx : Tx) : bool :=
  match tx_call tx with DropBall _ _ => true | _ => false end.

Definition is_withdraw (tx : Tx) : bool :=
  match tx_call tx with Withdraw => true | _ => false end.

Definition is_hand_over (tx : Tx) : bool :=
  match tx_call tx with TransferOwnership _ => true | _ => false end.

(** The turns a call hands to its sender when it is accepted. *)
Definition turns_granted_by (c : Call) : Z :=
  match c with
  | DailyCheckIn => DAILY_FREE_TURNS
  | BuyTurns turnCount _ => turnCount
  | _ => 0
  end.

Section Counting.
Context {chain : Chain}.

(** All the turns [a] was granted along a history, by check-in or purchase. *)
Fixpoint granted (a : address) (s : State) (txs : list Tx) : Z :=
  match txs with
  | [] => 0
  | tx :: rest =>
      (if sent_by a tx && accepted s tx then turns_granted_by (tx_call tx) else 0)
      + granted a (post (transact s tx)) rest
  end.

(** The number of accepted plays of [a] along a history. *)
Fixpoint plays (a : address) (s : State) (txs : list Tx) : Z :=
  match txs with
  | [] => 0
  | tx :: rest =>
      (if sent_by a tx && is_play_tx tx && accepted s tx then 1 else 0)
      + plays a (post (transact s tx)) rest
  end.

Definition dropped_during (a : address) : State -> list Tx -> bool :=
  accepted_some (fun tx => sent_by a tx && is_drop tx).

(** The grants on the current score handle of [a]. *)
Definition decryptable (s : State) (a : address) : Prop :=
  (getPlayerScore s a, a) ∈ acl s /\ (getPlayerScore s a, this) ∈ acl s.

End Counting.

(** The storage of an account holds [uint256] values. *)
Definition player_in_range (p : Player) : Prop :=
  is_uint256 (lastCheckInTime p) /\
  is_uint256 (availableTurns p) /\
  is_uint256 (gamesPlayed p).

(** Alice has played once, bob and carol not yet: the registry is already
    in descending order. *)
Definition ranked_history : list Tx :=
  [call alice 100000 DailyCheckIn;
   call bob 100000 (BuyTurns 2 (2 * TURN_PRICE));
   call carol 100000 DailyCheckIn;
   call alice 100001 PlayTurn].

Definition ranked : State := run (chain := clear_chain) (constructor house) ranked_history.

(** * Properties *)

(** Normalises reads after writes on the [players] mapping. *)
Ltac storage_simpl :=
  unfold player_at, set_players, set_playerAddresses, set_owner, set_balance, set_acl;
  repeat (simpl; rewrite ?lookup_insert_eq, ?insert_insert_eq).

(** ** Storage lemmas *)

Lemma player_at_insert_eq (s : State) (m : gmap address Player) (a : address) (p : Player) :
  player_at (set_players (<[a := p]> m) s) a = p.
Proof. unfold player_at; simpl. now rewrite lookup_insert_eq. Qed.

Lemma player_at_insert_ne (s : State) (m : gmap address Player) (a b : address) (p : Player) :
  a <> b ->
  player_at (set_players (<[a := p]> m) s) b = default zero_player (m !! b).
Proof. intros Hne. unfold player_at; simpl. now rewrite lookup_insert_ne. Qed.

(** ** What each entry point computes *)

Section Summaries.
Context {chain : Chain}.

Lemma dailyCheckIn_run (e : Env) (s : State) (l : list Event) :
  dailyCheckIn e s l =
    let p := player_at s (msg_sender e) in
    if lastCheckInTime p + SECONDS_PER_DAY <=? MAX_UINT256 then
      if lastCheckInTime p + SECONDS_PER_DAY <=? block_timestamp e then
        if availableTurns p + DAILY_FREE_TURNS <=? MAX_UINT256 then
          Ok (tt, checked_in e s,
              l ++ [CheckedIn (msg_sender e) DAILY_FREE_TURNS (block_timestamp e)])
        else Err (Panic 0x11)
      else Err (Revert "Already checked in today")
    else Err (Panic 0x11).
Proof.
  unfold dailyCheckIn, checked_in, bind, sload, sstore, lift, get, modify, emit,
    require, when, push_playerAddress, ret, fail, checked_add; cbn.
  destruct (_ + SECONDS_PER_DAY <=? MAX_UINT256); [|reflexivity].
  destruct (_ + SECONDS_PER_DAY <=? block_timestamp e); [|reflexivity].
  destruct (lastCheckInTime _ =? 0) eqn:Hz; cbn.
  all: unfold player_at at 1; cbn; fold (player_at s (msg_sender e)).
  all: destruct (_ + DAILY_FREE_TURNS <=? MAX_UINT256); [|reflexivity].
  all: rewrite !player_at_insert_eq; unfold set_players; cbn.
  all: now rewrite insert_insert_eq.
Qed.

Lemma buyTurns_run (e : Env) (turnCount msg_value : Z) (s : State) (l : list Event) :
  buyTurns e turnCount msg_value s l =
    let p := player_at s (msg_sender e) in
    if 0 <? turnCount then
      if turnCount * TURN_PRICE <=? MAX_UINT256 then
        if msg_value =? turnCount * TURN_PRICE then
          if availableTurns p + turnCount <=? MAX_UINT256 then
            Ok (tt, bought e turnCount msg_value s,
                l ++ [TurnsPurchased (msg_sender e) turnCount msg_value])
          else Err (Panic 0x11)
        else Err (Revert "Incorrect payment amount")
      else Err (Panic 0x11)
    else Err (Revert "Must buy at least 1 turn").
Proof.
  unfold buyTurns, bought, bind, sload, sstore, lift, get, modify, emit,
    require, when, push_playerAddress, ret, fail, checked_add, checked_mul; cbn.
  destruct (0 <? turnCount); [|reflexivity]. cbn.
  destruct (_ * TURN_PRICE <=? MAX_UINT256); [|reflexivity].
  destruct (msg_value =? _); [|reflexivity].
  unfold player_at, set_players; cbn.
  destruct (lastCheckInTime _ =? 0) eqn:Hz; cbn.
  all: storage_simpl.
  all: destruct (_ + turnCount <=? MAX_UINT256); [|reflexivity].
  all: now storage_simpl.
Qed.

Lemma playTurn_run (e : Env) (s : State) (l : list Event) :
  playTurn e s l =
    let p := player_at s (msg_sender e) in
    if 0 <? availableTurns p then
      if gamesPlayed p + 1 <=? MAX_UINT256 then
        Ok (tt, played e s,
            l ++ [GamePlayed (msg_sender e) (availableTurns p - 1)]
              ++ [ScoreUpdated (msg_sender e) (gamesPlayed p + 1)])
      else Err (Panic 0x11)
    else Err (Revert "No turns available").
Proof.
  unfold playTurn, played, played_record, bind, sload, sstore, lift, get, modify,
    emit, require, ret, fail, checked_add, checked_sub; cbn.
  destruct (0 <? availableTurns _) eqn:Hpos; [|reflexivity].
  apply Z.ltb_lt in Hpos.
  assert (Hsub : (1 <=? availableTurns (player_at s (msg_sender e))) = true)
    by (apply Z.leb_le; lia).
  cbn. rewrite Hsub. cbn.
  rewrite !player_at_insert_eq; cbn.
  destruct (_ + 1 <=? MAX_UINT256); [|reflexivity].
  storage_simpl. now rewrite <- app_assoc.
Qed.

Lemma dropBall_run (e : Env) (encryptedScore : externalEuint32) (inputProof : list Z)
    (s : State) (l : list Event) :
  dropBall e encryptedScore inputProof s l =
    let p := player_at s (msg_sender e) in
    if 0 <? availableTurns p then
      match FHE_fromExternal (msg_sender e) encryptedScore inputProof with
      | Some score =>
          if gamesPlayed p + 1 <=? MAX_UINT256 then
            Ok (tt, dropped e score s,
                l ++ [GamePlayed (msg_sender e) (availableTurns p - 1)]
                  ++ [ScoreUpdated (msg_sender e) (gamesPlayed p + 1)])
          else Err (Panic 0x11)
      | None => Err InvalidProof
      end
    else Err (Revert "No turns available").
Proof.
  unfold dropBall, dropped, played_record, bind, sload, sstore, lift, get, modify,
    emit, require, ret, fail, checked_add, checked_sub; cbn.
  destruct (0 <? availableTurns _) eqn:Hpos; [|reflexivity].
  apply Z.ltb_lt in Hpos.
  assert (Hsub : (1 <=? availableTurns (player_at s (msg_sender e))) = true)
    by (apply Z.leb_le; lia).
  cbn. destruct (FHE_fromExternal _ _ _) as [score|]; [|reflexivity]. cbn.
  rewrite !player_at_insert_eq; cbn. rewrite Hsub. cbn.
  rewrite !player_at_insert_eq; cbn.
  destruct (_ + 1 <=? MAX_UINT256); [|reflexivity].
  storage_simpl. now rewrite <- !app_assoc.
Qed.

Lemma withdraw_run (e : Env) (s : State) (l : list Event) :
  withdraw e s l =
    if msg_sender e =? owner s then
      if 0 <? balance s then
        if accepts_ether (owner s) then
          Ok (tt, set_balance (balance s - balance s) s,
              l ++ [Withdrawal (owner s) (balance s)])
        else Err TransferFailed
      else Err (Revert "No balance to withdraw")
    else Err (Revert "Only owner can call this function").
Proof.
  unfold withdraw, onlyOwner, bind, get, modify, emit, require, ret, fail; cbn.
  destruct (msg_sender e =? owner s); [|reflexivity]. cbn.
  destruct (0 <? balance s); [|reflexivity]. cbn.
  destruct (accepts_ether (owner s)); reflexivity.
Qed.

Lemma transferOwnership_run (e : Env) (newOwner : address) (s : State) (l : list Event) :
  transferOwnership e newOwner s l =
    if msg_sender e =? owner s then
      if newOwner =? 0 then Err (Revert "Invalid new owner address")
      else Ok (tt, set_owner newOwner s, l)
    else Err (Revert "Only owner can call this function").
Proof.
  unfold transferOwnership, onlyOwner, bind, get, modify, require, ret, fail; cbn.
  destruct (msg_sender e =? owner s); [|reflexivity]. cbn.
  destruct (newOwner =? 0); reflexivity.
Qed.

End Summaries.

(** ** Transactions *)

Section Transactions.
Context {chain : Chain}.

Lemma transact_rejected (s : State) (tx : Tx) :
  failure (transact s tx) <> None ->
  post (transact s tx) = s /\ logs (transact s tx) = [].
Proof.
  unfold transact.
  destruct (dispatch (tx_env tx) (tx_call tx) s []) as [[[u s'] l']|f]; simpl.
  - congruence.
  - auto.
Qed.

Lemma transact_accepted (s : State) (tx : Tx) :
  failure (transact s tx) = None ->
  effect_of s (tx_env tx) (tx_call tx) (post (transact s tx)) (logs (transact s tx)).
Proof.
  unfold transact, effect_of. destruct tx as [e c]; simpl.
  destruct c; simpl.
  - rewrite dailyCheckIn_run; cbv zeta.
    destruct (lastCheckInTime _ + _ <=? MAX_UINT256) eqn:H1; [|discriminate].
    destruct (lastCheckInTime _ + _ <=? block_timestamp e) eqn:H2; [|discriminate].
    destruct (availableTurns _ + _ <=? MAX_UINT256) eqn:H3; [|discriminate].
    simpl. intros _. apply Z.leb_le in H2, H3. repeat split; auto.
  - rewrite buyTurns_run; cbv zeta.
    destruct (0 <? turnCount) eqn:H1; [|discriminate].
    destruct (turnCount * _ <=? MAX_UINT256) eqn:H2; [|discriminate].
    destruct (msg_value =? _) eqn:H3; [|discriminate].
    destruct (availableTurns _ + _ <=? MAX_UINT256) eqn:H4; [|discriminate].
    simpl. intros _. apply Z.ltb_lt in H1. apply Z.eqb_eq in H3.
    apply Z.leb_le in H2, H4. repeat split; auto.
  - rewrite dropBall_run; cbv zeta.
    destruct (0 <? _) eqn:H1; [|discriminate].
    destruct (FHE_fromExternal _ _ _) as [score|] eqn:H2; [|discriminate].
    destruct (_ <=? MAX_UINT256) eqn:H3; [|discriminate].
    simpl. intros _. apply Z.ltb_lt in H1. apply Z.leb_le in H3.
    repeat split; auto. exists score; auto.
  - rewrite playTurn_run; cbv zeta.
    destruct (0 <? _) eqn:H1; [|discriminate].
    destruct (_ <=? MAX_UINT256) eqn:H3; [|discriminate].
    simpl. intros _. apply Z.ltb_lt in H1. apply Z.leb_le in H3.
    repeat split; auto.
  - rewrite withdraw_run.
    destruct (_ =? owner s) eqn:H1; [|discriminate].
    destruct (0 <? _) eqn:H2; [|discriminate].
    destruct (accepts_ether _) eqn:H3; [|discriminate].
    simpl. intros _. apply Z.eqb_eq in H1. apply Z.ltb_lt in H2.
    repeat split; auto.
  - rewrite transferOwnership_run.
    destruct (_ =? owner s) eqn:H1; [|discriminate].
    destruct (newOwner =? 0) eqn:H2; [discriminate|].
    simpl. intros _. apply Z.eqb_eq in H1. apply Z.eqb_neq in H2.
    repeat split; auto.
Qed.

Lemma accepted_or_rejected (s : State) (tx : Tx) :
  failure (transact s tx) = None \/ failure (transact s tx) <> None.
Proof. destruct (failure (transact s tx)); [right; discriminate | left; reflexivity]. Qed.

End Transactions.

(** ** Frame: what a call leaves alone *)

Section Frame.
Context {chain : Chain}.

Lemma player_at_checked_in (e : Env) (s : State) (a : address) :
  player_at (checked_in e s) a =
    if decide (a = msg_sender e)
    then set_lastCheckInTime (block_timestamp e)
           (set_availableTurns
              (availableTurns (player_at s (msg_sender e)) + DAILY_FREE_TURNS)
              (player_at s (msg_sender e)))
    else player_at s a.
Proof.
  unfold checked_in, player_at; simpl. destruct (decide (a = msg_sender e)) as [->|Hne].
  - now rewrite lookup_insert_eq.
  - now rewrite lookup_insert_ne.
Qed.

Lemma player_at_bought (e : Env) (turnCount msg_value : Z) (s : State) (a : address) :
  player_at (bought e turnCount msg_value s) a =
    if decide (a = msg_sender e)
    then set_availableTurns
           (availableTurns (player_at s (msg_sender e)) + turnCount)
           (if lastCheckInTime (player_at s (msg_sender e)) =? 0
            then set_lastCheckInTime 1 (player_at s (msg_sender e))
            else player_at s (msg_sender e))
    else player_at s a.
Proof.
  unfold bought, player_at; simpl. destruct (decide (a = msg_sender e)) as [->|Hne].
  - now rewrite lookup_insert_eq.
  - now rewrite lookup_insert_ne.
Qed.

Lemma player_at_played (e : Env) (s : State) (a : address) :
  player_at (played e s) a =
    if decide (a = msg_sender e)
    then played_record (player_at s (msg_sender e))
    else player_at s a.
Proof.
  unfold played, player_at; simpl. destruct (decide (a = msg_sender e)) as [->|Hne].
  - now rewrite lookup_insert_eq.
  - now rewrite lookup_insert_ne.
Qed.

Lemma player_at_dropped (e : Env) (score : euint32) (s : State) (a : address) :
  player_at (dropped e score s) a =
    if decide (a = msg_sender e)
    then played_record
           (set_totalScore (FHE_add (totalScore (player_at s (msg_sender e))) score)
              (player_at s (msg_sender e)))
    else player_at s a.
Proof.
  unfold dropped, player_at; simpl. destruct (decide (a = msg_sender e)) as [->|Hne].
  - now rewrite lookup_insert_eq.
  - now rewrite lookup_insert_ne.
Qed.

(** A call writes no record but the caller's. *)
Lemma transact_other_player (s : State) (tx : Tx) (a : address) :
  a <> msg_sender (tx_env tx) ->
  player_at (post (transact s tx)) a = player_at s a.
Proof.
  intros Hne. destruct (accepted_or_rejected s tx) as [Hok|Hko].
  - apply transact_accepted in Hok. unfold effect_of in Hok.
    destruct (tx_call tx); simpl in Hok.
    + destruct Hok as (_ & _ & -> & _). rewrite player_at_checked_in.
      now destruct (decide _).
    + destruct Hok as (_ & _ & _ & _ & -> & _). rewrite player_at_bought.
      now destruct (decide _).
    + destruct Hok as (_ & _ & (score & _ & ->) & _). rewrite player_at_dropped.
      now destruct (decide _).
    + destruct Hok as (_ & _ & -> & _). rewrite player_at_played.
      now destruct (decide _).
    + destruct Hok as (_ & _ & _ & -> & _). reflexivity.
    + destruct Hok as (_ & _ & -> & _). reflexivity.
  - apply transact_rejected in Hko as [-> _]. reflexivity.
Qed.

End Frame.

(** ** The ledger invariant *)

Section Invariant.
Context {chain : Chain}.

Lemma ledger_inv_constructor (deployer : address) : ledger_inv (constructor deployer).
Proof.
  split; [constructor|]. intros a. unfold player_at; simpl.
  rewrite lookup_empty; simpl. repeat split; try lia.
  intros H. inversion H.
Qed.

(** Membership in the registry as the two registering calls leave it. *)
Lemma registry_after_join (s : State) (sender a : address) :
  (sender ∈ playerAddresses s <-> lastCheckInTime (player_at s sender) <> 0) ->
  a ∈ (if lastCheckInTime (player_at s sender) =? 0
       then playerAddresses s ++ [sender] else playerAddresses s)
  <-> a = sender \/ a ∈ playerAddresses s.
Proof.
  intros Hs. destruct (Z.eqb_spec (lastCheckInTime (player_at s sender)) 0) as [Hz|Hz].
  - rewrite elem_of_app, list_elem_of_singleton. tauto.
  - split; [tauto|]. intros [->|H]; [now apply Hs | exact H].
Qed.

Lemma registry_after_join_NoDup (s : State) (sender : address) :
  NoDup (playerAddresses s) ->
  (sender ∈ playerAddresses s <-> lastCheckInTime (player_at s sender) <> 0) ->
  NoDup (if lastCheckInTime (player_at s sender) =? 0
         then playerAddresses s ++ [sender] else playerAddresses s).
Proof.
  intros Hnd Hs. destruct (Z.eqb_spec (lastCheckInTime (player_at s sender)) 0) as [Hz|Hz]; auto.
  apply NoDup_app. repeat split; auto.
  - intros x Hx Hx'. apply list_elem_of_singleton in Hx'. subst x.
    apply Hs in Hx. contradiction.
  - apply NoDup_singleton.
Qed.

Lemma ledger_inv_step (s : State) (tx : Tx) :
  ledger_inv s -> ledger_inv (post (transact s tx)).
Proof.
  intros [Hnd Hinv]. destruct (accepted_or_rejected s tx) as [Hok|Hko].
  2: { apply transact_rejected in Hko as [-> _]. now split. }
  apply transact_accepted in Hok. unfold effect_of in Hok.
  destruct tx as [e c]; simpl in Hok.
  pose proof (Hinv (msg_sender e)) as (Hs0 & Hs1 & Hs2); cbv zeta in Hs0, Hs1, Hs2.
  destruct c; simpl in Hok.
  - (* dailyCheckIn *)
    destruct Hok as (Hdue & _ & -> & _). unfold SECONDS_PER_DAY in Hdue.
    split; [now apply registry_after_join_NoDup|].
    intros a. cbv zeta. rewrite player_at_checked_in.
    destruct (Hinv a) as (Ha0 & Ha1 & Ha2); cbv zeta in Ha0, Ha1, Ha2.
    unfold checked_in; simpl. rewrite (registry_after_join s _ a Hs1).
    destruct (decide (a = msg_sender e)) as [->|Hne]; simpl.
    + split; [lia|]. split; [|lia]. split; [lia|]. intros _. now left.
    + split; [exact Ha0|]. split; [|exact Ha2]. rewrite <- Ha1. tauto.
  - (* buyTurns *)
    destruct Hok as (Hpos & _ & _ & _ & -> & _).
    split; [now apply registry_after_join_NoDup|].
    intros a. cbv zeta. rewrite player_at_bought.
    destruct (Hinv a) as (Ha0 & Ha1 & Ha2); cbv zeta in Ha0, Ha1, Ha2.
    unfold bought; simpl. rewrite (registry_after_join s _ a Hs1).
    destruct (decide (a = msg_sender e)) as [->|Hne]; simpl.
    + destruct (Z.eqb_spec (lastCheckInTime (player_at s (msg_sender e))) 0) as [Hz|Hz]; simpl.
      * split; [lia|]. split; [|lia]. split; [lia|]. intros _. now left.
      * split; [exact Hs0|]. split; [|contradiction]. split; [auto|]. intros _. now left.
    + split; [exact Ha0|]. split; [|exact Ha2]. rewrite <- Ha1. tauto.
  - (* dropBall *)
    destruct Hok as (Hpos & _ & (score & _ & ->) & _).
    split; [exact Hnd|]. intros a. cbv zeta. rewrite player_at_dropped.
    destruct (Hinv a) as (Ha0 & Ha1 & Ha2); cbv zeta in Ha0, Ha1, Ha2.
    unfold dropped; simpl.
    destruct (decide (a = msg_sender e)) as [->|Hne]; simpl.
    + split; [exact Hs0|]. split; [exact Hs1|]. intros Hz. apply Hs2 in Hz. lia.
    + auto.
  - (* playTurn *)
    destruct Hok as (Hpos & _ & -> & _).
    split; [exact Hnd|]. intros a. cbv zeta. rewrite player_at_played.
    destruct (Hinv a) as (Ha0 & Ha1 & Ha2); cbv zeta in Ha0, Ha1, Ha2.
    unfold played; simpl.
    destruct (decide (a = msg_sender e)) as [->|Hne]; simpl.
    + split; [exact Hs0|]. split; [exact Hs1|]. intros Hz. apply Hs2 in Hz. lia.
    + auto.
  - destruct Hok as (_ & _ & _ & -> & _). now split.
  - destruct Hok as (_ & _ & -> & _). now split.
Qed.

Lemma ledger_inv_run (txs : list Tx) (s : State) :
  ledger_inv s -> ledger_inv (run s txs).
Proof.
  revert s. induction txs as [|tx txs IH]; intros s Hs; simpl; [exact Hs|].
  apply IH. now apply ledger_inv_step.
Qed.

Lemma reachable_inv (s : State) : reachable s -> ledger_inv s.
Proof.
  intros (d & txs & _ & _ & ->). apply ledger_inv_run, ledger_inv_constructor.
Qed.

Lemma reachable_step (s : State) (tx : Tx) :
  reachable s -> wf_tx tx -> reachable (post (transact s tx)).
Proof.
  intros (d & txs & Hd & Hwf & ->) Htx. exists d, (txs ++ [tx]).
  split; [exact Hd|]. split.
  - apply Forall_app. split; auto.
  - clear Hwf. generalize (constructor d) as s.
    induction txs as [|t txs IH]; intros s; simpl; auto.
Qed.

End Invariant.

(** ** Joining: the first accepted check-in or purchase *)

Section Joining.
Context {chain : Chain}.

(** [lastCheckInTime] leaves zero exactly at an accepted check-in or
    purchase of the account, and never returns to it. *)
Lemma lastCheckInTime_step (s : State) (tx : Tx) (a : address) :
  ledger_inv s ->
  lastCheckInTime (player_at (post (transact s tx)) a) <> 0 <->
  lastCheckInTime (player_at s a) <> 0 \/ is_join a tx && accepted s tx = true.
Proof.
  intros [_ Hinv]. destruct (Hinv a) as (Ha0 & _ & _); cbv zeta in Ha0.
  unfold is_join, accepted, sent_by, is_check_in, is_purchase.
  destruct (accepted_or_rejected s tx) as [Hok|Hko].
  2: { apply transact_rejected in Hko as Hs. destruct Hs as [-> _].
       destruct (failure (transact s tx)); [|congruence].
       rewrite andb_false_r. intuition discriminate. }
  rewrite Hok. rewrite andb_true_r.
  apply transact_accepted in Hok. unfold effect_of in Hok.
  destruct tx as [e c]; simpl in *.
  destruct (Z.eqb_spec (msg_sender e) a) as [Heq|Hne]; simpl.
  - subst a. destruct c; simpl in Hok |- *.
    + destruct Hok as (Hdue & _ & -> & _). unfold SECONDS_PER_DAY in Hdue.
      rewrite player_at_checked_in. destruct (decide _); [simpl|congruence].
      split; [auto|]. intros _. lia.
    + destruct Hok as (_ & _ & _ & _ & -> & _).
      rewrite player_at_bought. destruct (decide _); [simpl|congruence].
      split; [auto|]. intros _.
      destruct (Z.eqb_spec (lastCheckInTime (player_at s (msg_sender e))) 0); simpl; lia.
    + destruct Hok as (_ & _ & (score & _ & ->) & _).
      rewrite player_at_dropped. destruct (decide _); [simpl|congruence].
      intuition discriminate.
    + destruct Hok as (_ & _ & -> & _).
      rewrite player_at_played. destruct (decide _); [simpl|congruence].
      intuition discriminate.
    + destruct Hok as (_ & _ & _ & -> & _). simpl. intuition discriminate.
    + destruct Hok as (_ & _ & -> & _). simpl. intuition discriminate.
  - rewrite (transact_other_player s (mkTx e c) a) by (simpl; congruence).
    intuition discriminate.
Qed.

Lemma lastCheckInTime_run (txs : list Tx) (s : State) (a : address) :
  ledger_inv s ->
  lastCheckInTime (player_at (run s txs) a) <> 0 <->
  lastCheckInTime (player_at s a) <> 0 \/ joined a s txs = true.
Proof.
  revert s. induction txs as [|tx txs IH]; intros s Hs; simpl.
  - intuition discriminate.
  - rewrite IH by now apply ledger_inv_step.
    rewrite lastCheckInTime_step by exact Hs.
    change (joined a s (tx :: txs))
      with (is_join a tx && accepted s tx || joined a (post (transact s tx)) txs).
    rewrite orb_true_iff. tauto.
Qed.

(** In a deployed contract, [lastCheckInTime = 0] says that the account
    has not joined yet. *)
Lemma not_joined_iff (deployer : address) (txs : list Tx) (a : address) :
  joined a (constructor deployer) txs = false <->
  lastCheckInTime (player_at (run (constructor deployer) txs) a) = 0.
Proof.
  pose proof (lastCheckInTime_run txs (constructor deployer) a
                (ledger_inv_constructor deployer)) as H.
  assert (Hz : lastCheckInTime (player_at (constructor deployer) a) = 0).
  { unfold player_at; simpl. now rewrite lookup_empty. }
  destruct (joined a (constructor deployer) txs);
    destruct (Z.eq_dec (lastCheckInTime (player_at (run (constructor deployer) txs) a)) 0);
    intuition congruence.
Qed.

End Joining.

(** ** Playing a turn *)

Section Play.
Context {chain : Chain}.

(** C1: for both play variants ([playTurn] and [dropBall]) the call is
    accepted only if the caller has [availableTurns > 0] -- it is accepted
    exactly when the caller has a turn, [gamesPlayed + 1] fits and, for
    [dropBall], the coprocessor accepts the input proof; an accepted call
    takes exactly 1 from the caller's [availableTurns] and adds exactly 1 to
    the caller's [gamesPlayed]; with [availableTurns = 0] the call is
    rejected and [gamesPlayed], like all other state, is unchanged. *)
Theorem play_spends_one_turn (s : State) (sender : address) (now : Z) (c : Call) :
  is_play c ->
  let tx := call sender now c in
  let before := player_at s sender in
  let after := player_at (post (transact s tx)) sender in
  (succeeds s tx <->
     0 < availableTurns before /\
     input_verifies sender c /\
     gamesPlayed before + 1 <= MAX_UINT256) /\
  (succeeds s tx ->
     0 < availableTurns before /\
     availableTurns after = availableTurns before - 1 /\
     gamesPlayed after = gamesPlayed before + 1) /\
  (availableTurns before = 0 ->
     rejects s tx /\
     post (transact s tx) = s /\
     logs (transact s tx) = [] /\
     gamesPlayed after = gamesPlayed before).
Proof.
  intros Hplay tx before after. subst before after. split; [|split].
  - subst tx. unfold succeeds, transact, call.
    destruct c; try contradiction; simpl.
    + rewrite dropBall_run; cbv zeta; simpl.
      destruct (Z.ltb_spec 0 (availableTurns (player_at s sender)));
        [|simpl; split; [discriminate | lia]].
      destruct (FHE_fromExternal sender encryptedScore inputProof) as [score|].
      * destruct (Z.leb_spec (gamesPlayed (player_at s sender) + 1) MAX_UINT256); simpl.
        -- split; auto.
        -- split; [discriminate | lia].
      * simpl. split; [discriminate|]. intros (_ & [x Hx] & _). discriminate.
    + rewrite playTurn_run; cbv zeta; simpl.
      destruct (Z.ltb_spec 0 (availableTurns (player_at s sender)));
        [|simpl; split; [discriminate | lia]].
      destruct (Z.leb_spec (gamesPlayed (player_at s sender) + 1) MAX_UINT256); simpl.
      * split; auto.
      * split; [discriminate | lia].
  - intros Hok. apply transact_accepted in Hok. unfold effect_of in Hok.
    subst tx. destruct c; try contradiction; simpl in Hok |- *.
    + destruct Hok as (Hpos & _ & (score & _ & ->) & _).
      rewrite player_at_dropped. simpl.
      destruct (decide (sender = sender)); [simpl; auto | congruence].
    + destruct Hok as (Hpos & _ & -> & _).
      rewrite player_at_played. simpl.
      destruct (decide (sender = sender)); [simpl; auto | congruence].
  - intros Hzero.
    assert (Hrej : rejects s tx).
    { unfold rejects. intros Hok. apply transact_accepted in Hok.
      unfold effect_of in Hok. subst tx.
      destruct c; try contradiction; simpl in Hok; lia. }
    split; [exact Hrej|].
    apply transact_rejected in Hrej as [Hs Hl]. rewrite Hs. auto.
Qed.

(** C4: every rejected call to a mutating entry point leaves the whole
    state unchanged -- turns, scores, timestamps, registry, owner, balance --
    and emits no event; and each of the listed faults is rejected:
    [dailyCheckIn] before the cooldown has elapsed, [buyTurns] with a zero
    count or a mismatched payment, [playTurn] or [dropBall] with no turn
    left, [withdraw] by a non-owner or with a zero balance,
    [transferOwnership] by a non-owner or to the zero address. *)
Theorem rejections_are_atomic (s : State) (tx : Tx) :
  (listed_fault s tx -> rejects s tx) /\
  (rejects s tx -> post (transact s tx) = s /\ logs (transact s tx) = []).
Proof.
  split; [|apply transact_rejected].
  unfold listed_fault, rejects. intros Hfault Hok.
  apply transact_accepted in Hok. unfold effect_of in Hok.
  destruct (tx_call tx); simpl in Hok.
  - lia.
  - destruct Hok as (? & ? & _). lia.
  - lia.
  - lia.
  - destruct Hok as (? & ? & _). lia.
  - destruct Hok as (? & ? & _). lia.
Qed.

End Play.

(** ** Check-in and purchase *)

Section Joins.
Context {chain : Chain}.

Lemma dailyCheckIn_succeeds_iff (s : State) (sender : address) (now : Z) :
  succeeds s (call sender now DailyCheckIn) <->
  lastCheckInTime (player_at s sender) + SECONDS_PER_DAY <= MAX_UINT256 /\
  lastCheckInTime (player_at s sender) + SECONDS_PER_DAY <= now /\
  availableTurns (player_at s sender) + DAILY_FREE_TURNS <= MAX_UINT256.
Proof.
  unfold succeeds, transact, call; simpl. rewrite dailyCheckIn_run; cbv zeta; simpl.
  destruct (Z.leb_spec (lastCheckInTime (player_at s sender) + SECONDS_PER_DAY) MAX_UINT256);
    [|simpl; split; [discriminate | lia]].
  destruct (Z.leb_spec (lastCheckInTime (player_at s sender) + SECONDS_PER_DAY) now);
    [|simpl; split; [discriminate | lia]].
  destruct (Z.leb_spec (availableTurns (player_at s sender) + DAILY_FREE_TURNS) MAX_UINT256);
    simpl; split; auto; try discriminate; lia.
Qed.

Lemma buyTurns_succeeds_iff (s : State) (sender : address) (now turnCount msg_value : Z) :
  succeeds s (call sender now (BuyTurns turnCount msg_value)) <->
  0 < turnCount /\
  turnCount * TURN_PRICE <= MAX_UINT256 /\
  msg_value = turnCount * TURN_PRICE /\
  availableTurns (player_at s sender) + turnCount <= MAX_UINT256.
Proof.
  unfold succeeds, transact, call; simpl. rewrite buyTurns_run; cbv zeta; simpl.
  destruct (Z.ltb_spec 0 turnCount); [|simpl; split; [discriminate | lia]].
  destruct (Z.leb_spec (turnCount * TURN_PRICE) MAX_UINT256);
    [|simpl; split; [discriminate | lia]].
  destruct (Z.eqb_spec msg_value (turnCount * TURN_PRICE));
    [|simpl; split; [discriminate | lia]].
  destruct (Z.leb_spec (availableTurns (player_at s sender) + turnCount) MAX_UINT256);
    simpl; split; auto; try discriminate; lia.
Qed.

(** [dailyCheckIn] in full: the cooldown and the room for the 3 free turns
    decide. *)
Lemma check_in_checked (deployer : address) (txs : list Tx) (sender : address) (now : Z) :
  is_uint256 now ->
  let s := run (constructor deployer) txs in
  let tx := call sender now DailyCheckIn in
  let before := player_at s sender in
  let after := player_at (post (transact s tx)) sender in
  (succeeds s tx <->
     lastCheckInTime before + SECONDS_PER_DAY <= now /\
     availableTurns before + DAILY_FREE_TURNS <= MAX_UINT256) /\
  (succeeds s tx ->
     availableTurns after = availableTurns before + 3 /\
     lastCheckInTime after = now /\
     playerAddresses (post (transact s tx)) =
       (if joined sender (constructor deployer) txs
        then playerAddresses s
        else playerAddresses s ++ [sender]) /\
     logs (transact s tx) = [CheckedIn sender 3 now]) /\
  (rejects s tx -> post (transact s tx) = s /\ logs (transact s tx) = []).
Proof.
  intros [_ Hnow] s tx before after. subst before after tx.
  split; [|split; [|apply transact_rejected]].
  - rewrite dailyCheckIn_succeeds_iff. lia.
  - intros Hok. apply transact_accepted in Hok. unfold effect_of in Hok; simpl in Hok.
    destruct Hok as (_ & _ & -> & ->). rewrite player_at_checked_in; simpl.
    destruct (decide (sender = sender)); [simpl|congruence].
    repeat split; auto. unfold checked_in; simpl.
    destruct (joined sender (constructor deployer) txs) eqn:Hj.
    + destruct (Z.eqb_spec (lastCheckInTime (player_at s sender)) 0) as [Hz|Hz]; auto.
      apply not_joined_iff in Hz. congruence.
    + apply not_joined_iff in Hj. fold s in Hj. now rewrite Hj.
Qed.

(** [buyTurns] in full: the count, the exact payment and the room for the
    turns bought decide. *)
Lemma buy_turns_checked (deployer : address) (txs : list Tx) (sender : address)
    (now turnCount msg_value : Z) :
  is_uint256 msg_value ->
  let s := run (constructor deployer) txs in
  let tx := call sender now (BuyTurns turnCount msg_value) in
  let before := player_at s sender in
  let after := player_at (post (transact s tx)) sender in
  (succeeds s tx <->
     0 < turnCount /\
     msg_value = turnCount * TURN_PRICE /\
     availableTurns before + turnCount <= MAX_UINT256) /\
  (succeeds s tx ->
     availableTurns after = availableTurns before + turnCount /\
     balance (post (transact s tx)) = balance s + msg_value /\
     (if joined sender (constructor deployer) txs
      then playerAddresses (post (transact s tx)) = playerAddresses s /\
           lastCheckInTime after = lastCheckInTime before
      else playerAddresses (post (transact s tx)) = playerAddresses s ++ [sender] /\
           lastCheckInTime after = 1) /\
     logs (transact s tx) = [TurnsPurchased sender turnCount msg_value]) /\
  (rejects s tx -> post (transact s tx) = s /\ logs (transact s tx) = []).
Proof.
  intros [_ Hval] s tx before after. subst before after tx.
  split; [|split; [|apply transact_rejected]].
  - rewrite buyTurns_succeeds_iff. lia.
  - intros Hok. apply transact_accepted in Hok. unfold effect_of in Hok; simpl in Hok.
    destruct Hok as (_ & _ & _ & _ & -> & ->). rewrite player_at_bought; simpl.
    destruct (decide (sender = sender)); [simpl|congruence].
    repeat split; auto.
    destruct (joined sender (constructor deployer) txs) eqn:Hj.
    + destruct (Z.eqb_spec (lastCheckInTime (player_at s sender)) 0) as [Hz|Hz]; auto.
      apply not_joined_iff in Hz. congruence.
    + apply not_joined_iff in Hj. fold s in Hj. rewrite Hj. simpl. auto.
Qed.

End Joins.

(** ** Feasible histories *)

Section Feasible.
Context {chain : Chain}.

(** One call adds to an account no more turns than there is ether. *)
Lemma turns_step_bound (s : State) (tx : Tx) (a : address) :
  feasible_tx tx ->
  availableTurns (player_at (post (transact s tx)) a)
    <= availableTurns (player_at s a) + ETHER_SUPPLY.
Proof.
  intros Hfeas.
  assert (Hroom : 3 <= ETHER_SUPPLY) by (vm_compute; discriminate).
  destruct (accepted_or_rejected s tx) as [Hok|Hko].
  2: { apply transact_rejected in Hko as [-> _]. lia. }
  destruct (decide (a = msg_sender (tx_env tx))) as [->|Hne].
  2: { rewrite transact_other_player by exact Hne. lia. }
  apply transact_accepted in Hok. unfold effect_of in Hok.
  unfold feasible_tx, is_payment in Hfeas.
  destruct tx as [e c]; simpl in *. destruct c; simpl in Hok.
  - destruct Hok as (_ & _ & -> & _). rewrite player_at_checked_in.
    destruct (decide _); [simpl; unfold DAILY_FREE_TURNS; lia | congruence].
  - destruct Hok as (Hn & Hval & _ & _ & -> & _). rewrite player_at_bought.
    destruct (decide _); [simpl | congruence].
    unfold TURN_PRICE in Hval. lia.
  - destruct Hok as (_ & _ & (score & _ & ->) & _). rewrite player_at_dropped.
    destruct (decide _); [simpl; lia | congruence].
  - destruct Hok as (_ & _ & -> & _). rewrite player_at_played.
    destruct (decide _); [simpl; lia | congruence].
  - destruct Hok as (_ & _ & _ & -> & _). unfold player_at; simpl. lia.
  - destruct Hok as (_ & _ & -> & _). unfold player_at; simpl. lia.
Qed.

Lemma turns_run_bound (txs : list Tx) (s : State) (a : address) :
  Forall feasible_tx txs ->
  availableTurns (player_at (run s txs) a)
    <= availableTurns (player_at s a) + Z.of_nat (length txs) * ETHER_SUPPLY.
Proof.
  intros Hall. revert s. induction Hall as [|tx txs Htx Hall IH]; intros s.
  - simpl. lia.
  - cbn [run length]. rewrite Nat2Z.inj_succ, Z.mul_succ_l.
    specialize (IH (post (transact s tx))).
    pose proof (turns_step_bound s tx a Htx). lia.
Qed.

(** In a feasible history the turn counters stay far from [2^256]: there
    is always room for whatever a call can add. *)
Lemma feasible_turns (deployer : address) (txs : list Tx) (a : address) :
  feasible txs ->
  availableTurns (player_at (run (constructor deployer) txs) a) + ETHER_SUPPLY
    <= MAX_UINT256.
Proof.
  intros [Hlen Hall].
  pose proof (turns_run_bound txs (constructor deployer) a Hall) as Hbound.
  assert (Hzero : availableTurns (player_at (constructor deployer) a) = 0).
  { unfold player_at; simpl. now rewrite lookup_empty. }
  assert (Hmul : Z.of_nat (length txs) * ETHER_SUPPLY <= HISTORY_BOUND * ETHER_SUPPLY).
  { apply Z.mul_le_mono_nonneg_r; [vm_compute; discriminate | exact Hlen]. }
  assert (Hfit : HISTORY_BOUND * ETHER_SUPPLY + ETHER_SUPPLY <= MAX_UINT256)
    by (vm_compute; discriminate).
  lia.
Qed.

(** C2: for every caller and every current time, [dailyCheckIn] is accepted
    if and only if the current time is at least [lastCheckInTime + 86400]; an
    accepted call adds exactly 3 to the caller's [availableTurns], sets
    [lastCheckInTime] to the current time, and appends the caller to the
    registry exactly when this is the caller's first interaction (no earlier
    accepted check-in or purchase); otherwise the call is rejected and
    nothing changes. *)
Theorem check_in_spec (deployer : address) (txs : list Tx) (sender : address) (now : Z) :
  feasible txs ->
  is_uint256 now ->
  let s := run (constructor deployer) txs in
  let tx := call sender now DailyCheckIn in
  let before := player_at s sender in
  let after := player_at (post (transact s tx)) sender in
  (succeeds s tx <-> lastCheckInTime before + SECONDS_PER_DAY <= now) /\
  (succeeds s tx ->
     availableTurns after = availableTurns before + 3 /\
     lastCheckInTime after = now /\
     playerAddresses (post (transact s tx)) =
       (if joined sender (constructor deployer) txs
        then playerAddresses s
        else playerAddresses s ++ [sender]) /\
     logs (transact s tx) = [CheckedIn sender 3 now]) /\
  (rejects s tx -> post (transact s tx) = s /\ logs (transact s tx) = []).
Proof.
  intros Hfeas Hnow s tx before after. subst s tx before after.
  pose proof (check_in_checked deployer txs sender now Hnow) as H.
  cbv zeta in H. destruct H as (Hiff & Heff & Hrej).
  split; [|split; [exact Heff | exact Hrej]].
  rewrite Hiff.
  pose proof (feasible_turns deployer txs sender Hfeas) as Hroom.
  assert (H3 : DAILY_FREE_TURNS <= ETHER_SUPPLY) by (vm_compute; discriminate).
  split; [tauto|]. intros Hdue. split; [exact Hdue | lia].
Qed.

(** C3: for every caller, count and attached payment, [buyTurns(count)] is
    accepted if and only if [count > 0] and the payment equals exactly
    [count * 0.001 ether] (nothing above, nothing below); an accepted call
    adds exactly [count] to the caller's [availableTurns] and credits the
    payment, and if the caller had never interacted before (no earlier
    accepted check-in or purchase) it appends the caller to the registry and
    sets [lastCheckInTime] to the sentinel 1 (otherwise both are left as they
    were); a rejected call changes nothing. *)
Theorem buy_turns_spec (deployer : address) (txs : list Tx) (sender : address)
    (now turnCount msg_value : Z) :
  feasible txs ->
  is_payment msg_value ->
  let s := run (constructor deployer) txs in
  let tx := call sender now (BuyTurns turnCount msg_value) in
  let before := player_at s sender in
  let after := player_at (post (transact s tx)) sender in
  (succeeds s tx <-> 0 < turnCount /\ msg_value = turnCount * TURN_PRICE) /\
  (succeeds s tx ->
     availableTurns after = availableTurns before + turnCount /\
     balance (post (transact s tx)) = balance s + msg_value /\
     (if joined sender (constructor deployer) txs
      then playerAddresses (post (transact s tx)) = playerAddresses s /\
           lastCheckInTime after = lastCheckInTime before
      else playerAddresses (post (transact s tx)) = playerAddresses s ++ [sender] /\
           lastCheckInTime after = 1) /\
     logs (transact s tx) = [TurnsPurchased sender turnCount msg_value]) /\
  (rejects s tx -> post (transact s tx) = s /\ logs (transact s tx) = []).
Proof.
  intros Hfeas [Hv0 Hv] s tx before after. subst s tx before after.
  assert (Hval : is_uint256 msg_value).
  { split; [exact Hv0|]. etransitivity; [exact Hv|]. vm_compute. discriminate. }
  pose proof (buy_turns_checked deployer txs sender now turnCount msg_value Hval) as H.
  cbv zeta in H. destruct H as (Hiff & Heff & Hrej).
  split; [|split; [exact Heff | exact Hrej]].
  rewrite Hiff.
  pose proof (feasible_turns deployer txs sender Hfeas) as Hroom.
  split; [tauto|]. intros [Hpos Hpay]. split; [exact Hpos|]. split; [exact Hpay|].
  unfold TURN_PRICE in Hpay. lia.
Qed.

End Feasible.

(** ** Accounts along a history *)

Section Accounts.
Context {chain : Chain}.

Lemma acted_not_joined (a : address) (txs : list Tx) (s : State) :
  acted a s txs = false -> joined a s txs = false.
Proof.
  revert s. induction txs as [|tx txs IH]; intros s; simpl; [auto|].
  unfold acted, joined in *; simpl. unfold is_join.
  rewrite !orb_false_iff. intros [H1 H2]. split; [|now apply IH].
  destruct (sent_by a tx); simpl in *; [|reflexivity].
  rewrite H1. apply andb_false_r.
Qed.

(** The record of an account changes only in the account's own accepted
    calls. *)
Lemma untouched_record (a : address) (txs : list Tx) (s : State) :
  acted a s txs = false -> player_at (run s txs) a = player_at s a.
Proof.
  revert s. induction txs as [|tx txs IH]; intros s; simpl; [auto|].
  unfold acted in *; simpl. rewrite orb_false_iff. intros [H1 H2].
  rewrite IH by exact H2.
  unfold sent_by, accepted in H1.
  destruct (Z.eqb_spec (msg_sender (tx_env tx)) a) as [Heq|Hne]; simpl in H1.
  - destruct (failure (transact s tx)) eqn:Hf; [|discriminate].
    assert (Hrej : failure (transact s tx) <> None) by congruence.
    apply transact_rejected in Hrej as [-> _]. reflexivity.
  - apply transact_other_player. congruence.
Qed.

(** Once set, [lastCheckInTime] is rewritten by an accepted check-in of the
    account and by nothing else. *)
Lemma lastCheckInTime_kept_step (a : address) (tx : Tx) (s : State) :
  lastCheckInTime (player_at s a) <> 0 ->
  sent_by a tx && is_check_in tx && accepted s tx = false ->
  lastCheckInTime (player_at (post (transact s tx)) a) = lastCheckInTime (player_at s a).
Proof.
  intros Hnz Hno. destruct (accepted_or_rejected s tx) as [Hok|Hko].
  2: { apply transact_rejected in Hko as [-> _]. reflexivity. }
  unfold accepted in Hno. rewrite Hok in Hno. rewrite andb_true_r in Hno.
  unfold sent_by, is_check_in in Hno.
  destruct (Z.eqb_spec (msg_sender (tx_env tx)) a) as [Heq|Hne]; simpl in Hno.
  2: { rewrite transact_other_player by congruence. reflexivity. }
  apply transact_accepted in Hok. unfold effect_of in Hok.
  destruct tx as [e c]; simpl in *. subst a.
  destruct c; simpl in Hok; try discriminate.
  - destruct Hok as (_ & _ & _ & _ & -> & _). rewrite player_at_bought.
    destruct (decide _); [simpl|congruence].
    destruct (Z.eqb_spec (lastCheckInTime (player_at s (msg_sender e))) 0); [contradiction|].
    reflexivity.
  - destruct Hok as (_ & _ & (score & _ & ->) & _). rewrite player_at_dropped.
    now destruct (decide _).
  - destruct Hok as (_ & _ & -> & _). rewrite player_at_played.
    now destruct (decide _).
  - destruct Hok as (_ & _ & _ & -> & _). reflexivity.
  - destruct Hok as (_ & _ & -> & _). reflexivity.
Qed.

Lemma lastCheckInTime_kept (a : address) (txs : list Tx) (s : State) :
  lastCheckInTime (player_at s a) <> 0 ->
  checked_in_during a s txs = false ->
  lastCheckInTime (player_at (run s txs) a) = lastCheckInTime (player_at s a).
Proof.
  revert s. induction txs as [|tx txs IH]; intros s Hnz; simpl; [auto|].
  unfold checked_in_during in *; simpl. rewrite orb_false_iff. intros [H1 H2].
  pose proof (lastCheckInTime_kept_step a tx s Hnz H1) as Hstep.
  rewrite IH; [exact Hstep | congruence | exact H2].
Qed.

Lemma canCheckIn_value (s : State) (now : Z) (a : address) :
  lastCheckInTime (player_at s a) + SECONDS_PER_DAY <= MAX_UINT256 ->
  canCheckIn s now a = Ok (lastCheckInTime (player_at s a) + SECONDS_PER_DAY <=? now).
Proof.
  intros H. unfold canCheckIn, checked_add. apply Z.leb_le in H. now rewrite H.
Qed.

End Accounts.

(** ** Claims on accounts *)

Section AccountClaims.
Context {chain : Chain}.

(** C6: in every reachable state each address occurs at most once in the
    registry [playerAddresses]; a call either leaves the registry as it was
    or appends its sender, and it appends only in an accepted check-in or
    purchase of a sender that had not joined before -- so no history appends
    an address twice. *)
Theorem registry_has_no_duplicates (deployer : address) (txs : list Tx) :
  let s := run (constructor deployer) txs in
  NoDup (playerAddresses s) /\
  forall tx : Tx,
    let sender := msg_sender (tx_env tx) in
    playerAddresses (post (transact s tx)) = playerAddresses s \/
    (playerAddresses (post (transact s tx)) = playerAddresses s ++ [sender] /\
     is_check_in tx || is_purchase tx = true /\
     succeeds s tx /\
     joined sender (constructor deployer) txs = false /\
     sender ∉ playerAddresses s).
Proof.
  intros s.
  assert (Hinv : ledger_inv s) by apply ledger_inv_run, ledger_inv_constructor.
  split; [apply Hinv|]. intros tx sender.
  destruct (accepted_or_rejected s tx) as [Hok|Hko].
  2: { apply transact_rejected in Hko as [-> _]. now left. }
  pose proof Hok as Heff. apply transact_accepted in Heff. unfold effect_of in Heff.
  destruct Hinv as [_ Hinv]. destruct (Hinv sender) as (_ & Hreg & _); cbv zeta in Hreg.
  assert (Hnew : lastCheckInTime (player_at s sender) = 0 ->
                 joined sender (constructor deployer) txs = false /\
                 sender ∉ playerAddresses s).
  { intros Hz. split; [now apply not_joined_iff|]. rewrite Hreg. tauto. }
  subst sender. destruct tx as [e c]; simpl in *.
  destruct c; simpl in Heff.
  - destruct Heff as (_ & _ & -> & _). unfold checked_in; simpl.
    destruct (Z.eqb_spec (lastCheckInTime (player_at s (msg_sender e))) 0) as [Hz|Hz];
      [right | now left].
    destruct (Hnew Hz). auto.
  - destruct Heff as (_ & _ & _ & _ & -> & _). unfold bought; simpl.
    destruct (Z.eqb_spec (lastCheckInTime (player_at s (msg_sender e))) 0) as [Hz|Hz];
      [right | now left].
    destruct (Hnew Hz). auto.
  - destruct Heff as (_ & _ & (score & _ & ->) & _). now left.
  - destruct Heff as (_ & _ & -> & _). now left.
  - destruct Heff as (_ & _ & _ & -> & _). now left.
  - destruct Heff as (_ & _ & -> & _). now left.
Qed.

(** C7: for every account and every two consecutive accepted [dailyCheckIn]
    calls of that account -- whatever else happens in between -- the
    [lastCheckInTime] recorded by the later call is strictly greater than
    the one recorded by the earlier call, and the two differ by at least
    86400. *)
Theorem check_ins_a_day_apart (s0 : State) (a : address) (t1 t2 : Z) (between : list Tx) :
  reachable s0 ->
  let s1 := post (transact s0 (call a t1 DailyCheckIn)) in
  let s2 := run s1 between in
  let s3 := post (transact s2 (call a t2 DailyCheckIn)) in
  succeeds s0 (call a t1 DailyCheckIn) ->
  checked_in_during a s1 between = false ->
  succeeds s2 (call a t2 DailyCheckIn) ->
  lastCheckInTime (player_at s1 a) = t1 /\
  lastCheckInTime (player_at s3 a) = t2 /\
  lastCheckInTime (player_at s1 a) < lastCheckInTime (player_at s3 a) /\
  lastCheckInTime (player_at s1 a) + 86400 <= lastCheckInTime (player_at s3 a).
Proof.
  intros Hreach s1 s2 s3 Hfirst Hnone Hsecond.
  apply reachable_inv in Hreach. destruct Hreach as [_ Hinv].
  destruct (Hinv a) as (Hpos & _ & _); cbv zeta in Hpos.
  apply transact_accepted in Hfirst. unfold effect_of in Hfirst; simpl in Hfirst.
  destruct Hfirst as (Hdue1 & _ & Hs1 & _). fold s1 in Hs1.
  assert (H1 : lastCheckInTime (player_at s1 a) = t1).
  { rewrite Hs1, player_at_checked_in; simpl. now destruct (decide (a = a)). }
  unfold SECONDS_PER_DAY in Hdue1.
  assert (H2 : lastCheckInTime (player_at s2 a) = t1).
  { unfold s2. rewrite lastCheckInTime_kept; [exact H1 | lia | exact Hnone]. }
  apply transact_accepted in Hsecond. unfold effect_of in Hsecond; simpl in Hsecond.
  destruct Hsecond as (Hdue2 & _ & Hs3 & _). fold s3 in Hs3.
  assert (H3 : lastCheckInTime (player_at s3 a) = t2).
  { rewrite Hs3, player_at_checked_in; simpl. now destruct (decide (a = a)). }
  unfold SECONDS_PER_DAY in Hdue2. rewrite H2 in Hdue2. rewrite H1, H3. lia.
Qed.

(** C8: for every address that has never interacted with the ledger,
    [getPlayerInfo] returns [(0, 0, 0)] and never errors, and [canCheckIn]
    returns true, at any current time. *)
Theorem fresh_account_view (deployer : address) (txs : list Tx) (a : address) (now : Z) :
  acted a (constructor deployer) txs = false ->
  is_block_timestamp now ->
  let s := run (constructor deployer) txs in
  getPlayerInfo s a = (0, 0, 0) /\
  canCheckIn s now a = Ok true.
Proof.
  intros Hno [Hnow _] s.
  assert (Hp : player_at s a = zero_player).
  { unfold s. rewrite untouched_record by exact Hno.
    unfold player_at; simpl. now rewrite lookup_empty. }
  split.
  - unfold getPlayerInfo. now rewrite Hp.
  - rewrite canCheckIn_value; rewrite Hp; simpl; [|vm_compute; discriminate].
    assert (Hle : (0 + SECONDS_PER_DAY <=? now) = true) by (apply Z.leb_le; lia).
    now rewrite Hle.
Qed.

(** C9: for every account whose only interaction was a first [buyTurns]
    (so that [lastCheckInTime] holds the sentinel 1), [canCheckIn] returns
    true right after the purchase -- the purchase imposes no check-in
    cooldown -- and the account's first [dailyCheckIn] thereafter is accepted
    and grants the 3 free turns. *)
Theorem purchase_only_check_in (deployer : address) (before between : list Tx)
    (a : address) (when_bought turnCount msg_value now : Z) :
  let s0 := run (constructor deployer) before in
  let s1 := post (transact s0 (call a when_bought (BuyTurns turnCount msg_value))) in
  let s2 := run s1 between in
  let s3 := post (transact s2 (call a now DailyCheckIn)) in
  acted a (constructor deployer) before = false ->
  succeeds s0 (call a when_bought (BuyTurns turnCount msg_value)) ->
  acted a s1 between = false ->
  is_block_timestamp now ->
  lastCheckInTime (player_at s2 a) = 1 /\
  canCheckIn s1 now a = Ok true /\
  canCheckIn s2 now a = Ok true /\
  succeeds s2 (call a now DailyCheckIn) /\
  availableTurns (player_at s3 a) = turnCount + 3 /\
  lastCheckInTime (player_at s3 a) = now.
Proof.
  intros s0 s1 s2 s3 Hfresh Hbuy Hidle [Hnow Hmax].
  assert (H0 : player_at s0 a = zero_player).
  { unfold s0. rewrite untouched_record by exact Hfresh.
    unfold player_at; simpl. now rewrite lookup_empty. }
  apply transact_accepted in Hbuy. unfold effect_of in Hbuy; simpl in Hbuy.
  destruct Hbuy as (Hpos & _ & Hprice & _ & Hs1 & _). fold s1 in Hs1.
  assert (H1 : player_at s1 a =
               {| totalScore := 0; lastCheckInTime := 1;
                  availableTurns := turnCount; gamesPlayed := 0 |}).
  { rewrite Hs1, player_at_bought; simpl.
    destruct (decide (a = a)); [|congruence]. now rewrite H0. }
  assert (H2 : player_at s2 a = player_at s1 a).
  { unfold s2. now rewrite untouched_record by exact Hidle. }
  rewrite H1 in H2.
  assert (Hle : (1 + SECONDS_PER_DAY <=? now) = true).
  { apply Z.leb_le. unfold SECONDS_PER_DAY in *. lia. }
  assert (Hcan1 : canCheckIn s1 now a = Ok true).
  { rewrite canCheckIn_value; rewrite H1; simpl; [now rewrite Hle|].
    vm_compute. discriminate. }
  assert (Hcan2 : canCheckIn s2 now a = Ok true).
  { rewrite canCheckIn_value; rewrite H2; simpl; [now rewrite Hle|].
    vm_compute. discriminate. }
  assert (Hok : succeeds s2 (call a now DailyCheckIn)).
  { apply dailyCheckIn_succeeds_iff. rewrite H2; simpl.
    unfold SECONDS_PER_DAY, DAILY_FREE_TURNS, TURN_PRICE in *. lia. }
  split; [now rewrite H2|]. split; [exact Hcan1|]. split; [exact Hcan2|].
  split; [exact Hok|].
  apply transact_accepted in Hok. unfold effect_of in Hok; simpl in Hok.
  destruct Hok as (_ & _ & Hs3 & _). fold s3 in Hs3.
  rewrite Hs3, player_at_checked_in; simpl.
  destruct (decide (a = a)); [|congruence]. rewrite H2; simpl. auto.
Qed.

End AccountClaims.

(** ** The leaderboard *)

Section Loops.
Context {A : Type}.

Lemma for_range_inv (I : nat -> A -> Prop) (body : nat -> A -> Result A)
    (count first : nat) (a : A) :
  I first a ->
  (forall i x, (first <= i < first + count)%nat -> I i x ->
     exists x', body i x = Ok x' /\ I (S i) x') ->
  exists a', for_range first count body a = Ok a' /\ I (first + count)%nat a'.
Proof.
  revert first a. induction count as [|k IH]; intros first a Ha Hbody; simpl.
  - exists a. split; [reflexivity|]. now rewrite Nat.add_0_r.
  - destruct (Hbody first a) as (x' & -> & Hx'); [lia | exact Ha |]. simpl.
    destruct (IH (S first) x' Hx') as (a' & Hrun & Ha').
    { intros i x Hi. apply Hbody. lia. }
    exists a'. split; [exact Hrun|]. now replace (first + S k)%nat with (S first + k)%nat by lia.
Qed.

Lemma for_loop_inv (I : nat -> A -> Prop) (body : nat -> A -> Result A)
    (lo hi : nat) (a : A) :
  (lo <= hi)%nat ->
  I lo a ->
  (forall i x, (lo <= i < hi)%nat -> I i x -> exists x', body i x = Ok x' /\ I (S i) x') ->
  exists a', for_loop lo hi body a = Ok a' /\ I hi a'.
Proof.
  intros Hle Ha Hbody. unfold for_loop.
  destruct (for_range_inv I body (hi - lo) lo a Ha) as (a' & Hrun & Ha').
  { intros i x Hi. apply Hbody. lia. }
  exists a'. split; [exact Hrun|]. now replace hi with (lo + (hi - lo))%nat by lia.
Qed.

End Loops.

Section Exchange.
Context (key : ref -> Z).

Lemma insert_Permutation (l : list ref) (i : nat) (a b : ref) :
  l !! i = Some a -> Permutation (a :: <[i := b]> l) (b :: l).
Proof.
  revert i. induction l as [|c l IH]; intros [|i] H; simpl in *; try discriminate.
  - injection H as ->. apply perm_swap.
  - etransitivity; [apply perm_swap|].
    etransitivity; [apply perm_skip, (IH i H)|]. apply perm_swap.
Qed.

Lemma exchange_length (i j : nat) (l : list ref) :
  length (exchange key i j l) = length l.
Proof.
  unfold exchange. destruct (l !! i), (l !! j); auto.
  destruct (_ <? _); auto. now rewrite !length_insert.
Qed.

Lemma exchange_Permutation (i j : nat) (l : list ref) :
  i <> j -> Permutation (exchange key i j l) l.
Proof.
  intros Hne. unfold exchange.
  destruct (l !! i) as [ri|] eqn:Hi; [|reflexivity].
  destruct (l !! j) as [rj|] eqn:Hj; [|reflexivity].
  destruct (_ <? _); [|reflexivity].
  apply (Permutation_cons_inv (a := rj)).
  etransitivity.
  - apply insert_Permutation. rewrite list_lookup_insert_ne by exact Hne. exact Hj.
  - now apply insert_Permutation.
Qed.

Lemma exchange_lookup (i j : nat) (l : list ref) (ri rj : ref) (p : nat) :
  (i < j)%nat -> l !! i = Some ri -> l !! j = Some rj ->
  <[j := ri]> (<[i := rj]> l) !! p =
    if decide (p = j) then Some ri else if decide (p = i) then Some rj else l !! p.
Proof.
  intros Hij Hi Hj.
  apply lookup_lt_Some in Hi as Hi'. apply lookup_lt_Some in Hj as Hj'.
  destruct (decide (p = j)) as [->|Hpj].
  - apply list_lookup_insert_eq. now rewrite length_insert.
  - rewrite list_lookup_insert_ne by congruence.
    destruct (decide (p = i)) as [->|Hpi].
    + now apply list_lookup_insert_eq.
    + now rewrite list_lookup_insert_ne by congruence.
Qed.

Lemma exchange_step (i j : nat) (l : list ref) :
  (i < j < length l)%nat ->
  settled key i l -> leads key i j l ->
  settled key i (exchange key i j l) /\ leads key i (S j) (exchange key i j l).
Proof.
  intros [Hij Hj] Hset Hlead. unfold exchange.
  destruct (lookup_lt_is_Some_2 l i) as [ri Hri]; [lia|].
  destruct (lookup_lt_is_Some_2 l j Hj) as [rj Hrj].
  rewrite Hri, Hrj.
  destruct (Z.ltb_spec (key ri) (key rj)) as [Hlt|Hge].
  - split.
    + intros p q x y Hp Hpq. rewrite !(exchange_lookup i j l ri rj) by assumption.
      destruct (decide (p = j)); [lia|]. destruct (decide (p = i)); [lia|].
      intros Hx. destruct (decide (q = j)) as [->|Hqj].
      * intros [= <-]. apply (Hset p i x ri); auto; lia.
      * destruct (decide (q = i)) as [->|Hqi].
        -- intros [= <-]. apply (Hset p j x rj); auto; lia.
        -- intros Hy. now apply (Hset p q x y).
    + intros q x y Hq. rewrite !(exchange_lookup i j l ri rj) by assumption.
      destruct (decide (i = j)); [lia|]. destruct (decide (i = i)); [|congruence].
      intros [= <-]. destruct (decide (q = j)) as [->|Hqj].
      * intros [= <-]. lia.
      * destruct (decide (q = i)); [lia|]. intros Hy.
        pose proof (Hlead q ri y ltac:(lia) Hri Hy). lia.
  - split; [exact Hset|].
    intros q x y Hq Hx Hy. rewrite Hri in Hx. injection Hx as <-.
    destruct (decide (q = j)) as [->|Hqj].
    + rewrite Hrj in Hy. injection Hy as <-. lia.
    + apply (Hlead q ri y); auto; lia.
Qed.

End Exchange.

Section Leaderboard.

Lemma lookup_map {X Y : Type} (f : X -> Y) (l : list X) (i : nat) :
  map f l !! i = f <$> (l !! i).
Proof. revert i. induction l as [|x l IH]; intros [|i]; simpl; auto. Qed.

Lemma deref_heap (m m' : Memory) (r : ref) :
  heap m' = heap m -> deref m' r = deref m r.
Proof. unfold deref. now intros ->. Qed.

Lemma compare_swap_exchange (i j : nat) (m : Memory) :
  (i < j < length (slots m))%nat ->
  compare_swap i j m =
    Ok {| heap := heap m; slots := exchange (key_of (heap m)) i j (slots m) |}.
Proof.
  intros [Hij Hj]. unfold compare_swap, exchange, mload, mstore, deref, key_of.
  destruct (lookup_lt_is_Some_2 (slots m) i) as [ri Hri]; [lia|].
  destruct (lookup_lt_is_Some_2 (slots m) j Hj) as [rj Hrj].
  rewrite Hri, Hrj; simpl.
  destruct (_ <? _); simpl; [|now destruct m].
  destruct (decide (i < length (slots m))%nat); [simpl|lia].
  rewrite length_insert. destruct (decide (j < length (slots m))%nat); [reflexivity|lia].
Qed.

(** The inner loop: slot [i] ends up holding the largest key of the slots
    from [i] on. *)
Lemma inner_loop_settles (n i : nat) (m : Memory) :
  (i < n)%nat -> length (slots m) = n ->
  settled (key_of (heap m)) i (slots m) ->
  exists m',
    for_loop (i + 1) n (compare_swap i) m = Ok m' /\
    heap m' = heap m /\
    length (slots m') = n /\
    Permutation (slots m') (slots m) /\
    settled (key_of (heap m)) (S i) (slots m').
Proof.
  intros Hi Hlen Hset.
  destruct (for_loop_inv
    (fun j m' =>
       heap m' = heap m /\ length (slots m') = n /\
       Permutation (slots m') (slots m) /\
       settled (key_of (heap m)) i (slots m') /\
       leads (key_of (heap m)) i j (slots m'))
    (compare_swap i) (i + 1) n m) as (m' & Hrun & Hh & Hl & Hp & Hs & Hd).
  - lia.
  - repeat split; auto. intros q x y Hq. lia.
  - intros j x Hj (Hh & Hl & Hp & Hs & Hd).
    rewrite compare_swap_exchange by lia. eexists. split; [reflexivity|]. simpl.
    rewrite Hh. split; [reflexivity|]. split; [now rewrite exchange_length|].
    split; [etransitivity; [apply exchange_Permutation; lia | exact Hp]|].
    apply exchange_step; auto. lia.
  - exists m'. repeat split; auto.
    intros p q x y Hp' Hpq Hx Hy.
    destruct (decide (p = i)) as [->|Hne].
    + apply (Hd q x y); auto. apply lookup_lt_Some in Hy. lia.
    + apply (Hs p q x y); auto. lia.
Qed.

Lemma sort_pass_sorts (n : nat) (m : Memory) :
  length (slots m) = n ->
  exists m',
    sort_pass n m = Ok m' /\
    heap m' = heap m /\
    Permutation (slots m') (slots m) /\
    settled (key_of (heap m)) n (slots m').
Proof.
  intros Hlen. unfold sort_pass.
  destruct (for_loop_inv
    (fun i m' =>
       heap m' = heap m /\ length (slots m') = n /\
       Permutation (slots m') (slots m) /\
       settled (key_of (heap m)) i (slots m'))
    (fun i leaderboard => for_loop (i + 1) n (compare_swap i) leaderboard)
    0 n m) as (m' & Hrun & Hh & Hl & Hp & Hs).
  - lia.
  - repeat split; auto. intros p q x y Hp. lia.
  - intros i x Hi (Hh & Hl & Hp & Hs).
    destruct (inner_loop_settles n i x) as (x' & Hrun & Hh' & Hl' & Hp' & Hs'); auto; try lia.
    { now rewrite Hh. }
    exists x'. split; [exact Hrun|].
    split; [congruence|]. split; [exact Hl'|].
    split; [etransitivity; eauto|]. now rewrite <- Hh.
  - exists m'. auto.
Qed.

(** The first loop: every slot receives a fresh struct holding the address
    at the same index of the registry and its current [gamesPlayed]. *)
Lemma fill_loop_entries (s : State) :
  let n := length (playerAddresses s) in
  exists m,
    for_loop 0 n (fill_entry s) (new_array n) = Ok m /\
    length (slots m) = n /\
    map (deref m) (slots m) = map (entry_of s) (playerAddresses s).
Proof.
  intros n.
  destruct (for_loop_inv
    (fun k m =>
       length (slots m) = n /\
       forall i a, (i < k)%nat -> playerAddresses s !! i = Some a ->
         exists r, slots m !! i = Some r /\ heap m !! r = Some (entry_of s a))
    (fill_entry s) 0 n (new_array n)) as (m & Hrun & Hl & Hall).
  - lia.
  - split; [apply length_seq|]. intros i a Hi. lia.
  - intros k m Hk (Hl & Hall). unfold fill_entry, sload_address.
    destruct (lookup_lt_is_Some_2 (playerAddresses s) k) as [a Ha]; [fold n; lia|].
    rewrite Ha; simpl. unfold mstore; simpl.
    destruct (decide (k < length (slots m))%nat); [|lia].
    eexists. split; [reflexivity|]. simpl. split; [now rewrite length_insert|].
    intros i b Hi Hb. destruct (decide (i = k)) as [->|Hne].
    + exists (length (heap m)). split; [apply list_lookup_insert_eq; lia|].
      rewrite Ha in Hb. injection Hb as <-.
      apply list_lookup_middle. reflexivity.
    + destruct (Hall i b) as (r & Hr & Hh); [lia | exact Hb |].
      exists r. split; [now rewrite list_lookup_insert_ne by congruence|].
      now apply lookup_app_l_Some.
  - exists m. split; [exact Hrun|]. split; [exact Hl|].
    apply list_eq. intros i. rewrite !lookup_map.
    destruct (playerAddresses s !! i) as [a|] eqn:Ha.
    + destruct (Hall i a) as (r & Hr & Hh); [apply lookup_lt_Some in Ha; fold n in Ha; lia | exact Ha |].
      rewrite Hr; simpl. unfold deref. now rewrite Hh.
    + apply lookup_ge_None in Ha. fold n in Ha.
      assert (Hnone : slots m !! i = None) by (apply lookup_ge_None; lia).
      now rewrite Hnone.
Qed.

(** [getLeaderboard] never fails; it returns the registry's entries, each
    with the current [gamesPlayed] of its address, rearranged in descending
    order of [gamesPlayed]. *)
Lemma getLeaderboard_sorted (s : State) :
  exists lb,
    getLeaderboard s = Ok lb /\
    Permutation lb (map (entry_of s) (playerAddresses s)) /\
    descending lb.
Proof.
  unfold getLeaderboard.
  destruct (fill_loop_entries s) as (m1 & -> & Hl1 & Hfill); simpl.
  destruct (sort_pass_sorts (length (playerAddresses s)) m1 Hl1)
    as (m2 & -> & Hh & Hp & Hs); simpl.
  assert (Hderef : map (deref m2) (slots m2) = map (deref m1) (slots m2)).
  { apply map_ext. intros r. now apply deref_heap. }
  eexists. split; [reflexivity|]. split.
  - rewrite Hderef, <- Hfill. now apply Permutation_map.
  - intros p q x y Hpq. rewrite !lookup_map.
    destruct (slots m2 !! p) as [rp|] eqn:Hrp; [simpl|discriminate].
    destruct (slots m2 !! q) as [rq|] eqn:Hrq; [simpl|discriminate].
    intros [= <-] [= <-].
    assert (Hq : (q < length (playerAddresses s))%nat).
    { apply lookup_lt_Some in Hrq. apply Permutation_length in Hp. lia. }
    pose proof (Hs p q rp rq ltac:(lia) Hpq Hrp Hrq) as Hle.
    unfold key_of in Hle. unfold deref. now rewrite Hh.
Qed.

End Leaderboard.

(** ** Claims on the registry and the leaderboard *)

Section LeaderboardClaims.
Context {chain : Chain}.

(** C5 (amended): [getLeaderboard] always returns; its result holds exactly
    one [(address, gamesPlayed)] pair for every registry entry -- it is a
    permutation of the registry, each address paired with its current
    [gamesPlayed], and no address occurs twice -- sorted by [gamesPlayed] in
    descending order.  (The order among entries with equal [gamesPlayed] is
    left open.) *)
Theorem leaderboard_is_sorted_registry (s : State) :
  exists lb,
    getLeaderboard s = Ok lb /\
    Permutation lb (map (entry_of s) (playerAddresses s)) /\
    descending lb /\
    (NoDup (playerAddresses s) -> NoDup (map LeaderboardEntry.playerAddress lb)).
Proof.
  destruct (getLeaderboard_sorted s) as (lb & Hrun & Hperm & Hdesc).
  exists lb. repeat split; auto.
  intros Hnd. apply Permutation_map with (f := LeaderboardEntry.playerAddress) in Hperm.
  rewrite map_map in Hperm; simpl in Hperm. rewrite map_id in Hperm.
  apply NoDup_ListNoDup. apply NoDup_ListNoDup in Hnd.
  eapply Permutation_NoDup; [symmetry; exact Hperm | exact Hnd].
Qed.


End LeaderboardClaims.

(** ** The claims on concrete inputs *)

Lemma tied_reachable : reachable (chain := clear_chain) tied.
Proof.
  exists house, tied_history. split; [vm_compute; split; [discriminate | reflexivity]|].
  split; [|reflexivity].
  repeat constructor; vm_compute; discriminate.
Qed.

(** C1 on a concrete input: after a check-in, [playTurn] is accepted and
    leaves 2 turns and 1 game, and so does [dropBall] with a verified input;
    for an account without turns, [dropBall] is rejected. *)
Lemma play_spends_one_turn_witness :
  let s := run (chain := clear_chain) (constructor house) [call alice 100000 DailyCheckIn] in
  let played := post (transact (chain := clear_chain) s (call alice 100001 PlayTurn)) in
  let dropped := post (transact (chain := clear_chain) s (call alice 100001 (DropBall 50 []))) in
  (availableTurns (player_at played alice) = 2 /\ gamesPlayed (player_at played alice) = 1) /\
  (succeeds (chain := clear_chain) s (call alice 100001 (DropBall 50 [])) /\
   availableTurns (player_at dropped alice) = 2 /\
   gamesPlayed (player_at dropped alice) = 1) /\
  rejects (chain := clear_chain) s (call bob 100001 (DropBall 50 [])).
Proof.
  intros s played dropped. split; [|split].
  - destruct (play_spends_one_turn (chain := clear_chain) s alice 100001 PlayTurn I)
      as (Hiff & Hacc & _).
    assert (Hok : succeeds (chain := clear_chain) s (call alice 100001 PlayTurn)).
    { apply Hiff. split; [reflexivity|]. split; [exact I|]. vm_compute. discriminate. }
    destruct (Hacc Hok) as (_ & Hturns & Hgames).
    unfold played. rewrite Hturns, Hgames. split; reflexivity.
  - destruct (play_spends_one_turn (chain := clear_chain) s alice 100001 (DropBall 50 []) I)
      as (Hiff & Hacc & _).
    assert (Hok : succeeds (chain := clear_chain) s (call alice 100001 (DropBall 50 []))).
    { apply Hiff. split; [reflexivity|]. split; [eexists; reflexivity|].
      vm_compute. discriminate. }
    split; [exact Hok|].
    destruct (Hacc Hok) as (_ & Hturns & Hgames).
    unfold dropped. rewrite Hturns, Hgames. split; reflexivity.
  - destruct (play_spends_one_turn (chain := clear_chain) s bob 100001 (DropBall 50 []) I)
      as (_ & _ & Hrej).
    destruct Hrej as (Hrej & _); [reflexivity | exact Hrej].
Defined.

Lemma one_purchase_feasible :
  feasible [call bob 1700000000 (BuyTurns 5 (5 * TURN_PRICE))].
Proof.
  split; [vm_compute; discriminate|].
  repeat constructor; vm_compute; discriminate.
Qed.

(** C2 on a concrete input: the first check-in of a new account, after a
    purchase of another one. *)
Lemma check_in_spec_witness :
  let txs := [call bob 1700000000 (BuyTurns 5 (5 * TURN_PRICE))] in
  let s := run (chain := clear_chain) (constructor house) txs in
  succeeds (chain := clear_chain) s (call alice 1700000000 DailyCheckIn) /\
  playerAddresses (post (transact (chain := clear_chain) s
                           (call alice 1700000000 DailyCheckIn))) = [bob; alice].
Proof.
  intros txs s.
  assert (Hnow : is_uint256 1700000000) by (vm_compute; split; discriminate).
  pose proof (check_in_spec (chain := clear_chain) house txs alice 1700000000
                one_purchase_feasible Hnow) as W.
  cbv zeta in W. destruct W as (Hiff & Heff & _).
  assert (Hok : succeeds (chain := clear_chain) s (call alice 1700000000 DailyCheckIn)).
  { apply Hiff. vm_compute. discriminate. }
  split; [exact Hok|].
  destruct (Heff Hok) as (_ & _ & Hreg & _). exact Hreg.
Defined.

(** C3 on a concrete input: a first purchase of 5 turns at the exact
    price is accepted, and refused when one wei is missing. *)
Lemma buy_turns_spec_witness :
  let txs := [call bob 1700000000 (BuyTurns 5 (5 * TURN_PRICE))] in
  let s := run (chain := clear_chain) (constructor house) txs in
  (succeeds (chain := clear_chain) s (call alice 1700000000 (BuyTurns 5 (5 * TURN_PRICE))) /\
   availableTurns (player_at (post (transact (chain := clear_chain) s
     (call alice 1700000000 (BuyTurns 5 (5 * TURN_PRICE))))) alice) = 5) /\
  ~ succeeds (chain := clear_chain) s
      (call alice 1700000000 (BuyTurns 5 (5 * TURN_PRICE - 1))).
Proof.
  intros txs s. split.
  - assert (Hval : is_payment (5 * TURN_PRICE)) by (vm_compute; split; discriminate).
    pose proof (buy_turns_spec (chain := clear_chain) house txs alice 1700000000 5
                  (5 * TURN_PRICE) one_purchase_feasible Hval) as W.
    cbv zeta in W. destruct W as (Hiff & Heff & _).
    assert (Hok : succeeds (chain := clear_chain) s
                    (call alice 1700000000 (BuyTurns 5 (5 * TURN_PRICE)))).
    { apply Hiff. split; reflexivity. }
    split; [exact Hok|].
    destruct (Heff Hok) as (Hturns & _). exact Hturns.
  - assert (Hval : is_payment (5 * TURN_PRICE - 1)) by (vm_compute; split; discriminate).
    pose proof (buy_turns_spec (chain := clear_chain) house txs alice 1700000000 5
                  (5 * TURN_PRICE - 1) one_purchase_feasible Hval) as W.
    cbv zeta in W. destruct W as (Hiff & _).
    intros Hok. apply Hiff in Hok as [_ Hpay]. vm_compute in Hpay. discriminate.
Defined.

(** C4 on a concrete input: a second check-in within the day is a listed
    fault, is rejected, and leaves the state as it was. *)
Lemma rejections_are_atomic_witness :
  let s := run (chain := clear_chain) (constructor house) [call alice 100000 DailyCheckIn] in
  rejects (chain := clear_chain) s (call alice 100001 DailyCheckIn) /\
  post (transact (chain := clear_chain) s (call alice 100001 DailyCheckIn)) = s.
Proof.
  intros s.
  destruct (rejections_are_atomic (chain := clear_chain) s (call alice 100001 DailyCheckIn))
    as [Hfault Hatomic].
  assert (Hrej : rejects (chain := clear_chain) s (call alice 100001 DailyCheckIn)).
  { apply Hfault. vm_compute. reflexivity. }
  split; [exact Hrej|]. destruct (Hatomic Hrej) as [Hpost _]. exact Hpost.
Defined.

(** C5 as stated fails: alice joined before bob and both played once, yet
    the leaderboard lists bob before alice. *)
Lemma leaderboard_ties_reversed :
  reachable (chain := clear_chain) tied /\
  playerAddresses tied = [alice; bob; carol] /\
  getLeaderboard tied =
    Ok [LeaderboardEntry.mk carol 2; LeaderboardEntry.mk bob 1; LeaderboardEntry.mk alice 1] /\
  ~ ties_in_registry_order (playerAddresses tied)
      [LeaderboardEntry.mk carol 2; LeaderboardEntry.mk bob 1; LeaderboardEntry.mk alice 1].
Proof.
  split; [apply tied_reachable|]. split; [reflexivity|]. split; [reflexivity|].
  intros Hties.
  destruct (Hties 1%nat 2%nat (LeaderboardEntry.mk bob 1) (LeaderboardEntry.mk alice 1))
    as (i & j & Hij & Hi & Hj); try reflexivity; [lia|].
  change (playerAddresses tied) with [alice; bob; carol] in Hi, Hj.
  destruct i as [|[|[|i]]]; simpl in Hi; try discriminate.
  destruct j as [|[|[|j]]]; simpl in Hj; try discriminate. lia.
Qed.

(** C5 (amended) on a concrete input. *)
Lemma leaderboard_is_sorted_registry_witness :
  exists lb,
    getLeaderboard tied = Ok lb /\
    NoDup (map LeaderboardEntry.playerAddress lb).
Proof.
  destruct (leaderboard_is_sorted_registry tied) as (lb & Hrun & _ & _ & Hnd).
  exists lb. split; [exact Hrun|]. apply Hnd.
  change (playerAddresses tied) with [alice; bob; carol].
  apply NoDup_ListNoDup. repeat constructor; simpl; intuition discriminate.
Defined.

(** C7 on a concrete input: two check-ins of alice exactly a day apart,
    with a purchase and a play in between. *)
Lemma check_ins_a_day_apart_witness :
  let s1 := post (transact (chain := clear_chain) tied (call alice 200000 DailyCheckIn)) in
  let between := [call alice 200005 (BuyTurns 2 (2 * TURN_PRICE)); call alice 200010 PlayTurn] in
  let s3 := post (transact (chain := clear_chain) (run (chain := clear_chain) s1 between)
                    (call alice 286400 DailyCheckIn)) in
  lastCheckInTime (player_at s1 alice) + 86400 <= lastCheckInTime (player_at s3 alice).
Proof.
  intros s1 between s3.
  pose proof (check_ins_a_day_apart (chain := clear_chain) tied alice 200000 286400 between
                tied_reachable) as W.
  cbv zeta in W.
  assert (Hfirst : succeeds (chain := clear_chain) tied (call alice 200000 DailyCheckIn))
    by reflexivity.
  assert (Hnone : checked_in_during (chain := clear_chain) alice s1 between = false)
    by reflexivity.
  assert (Hsecond : succeeds (chain := clear_chain) (run (chain := clear_chain) s1 between)
                      (call alice 286400 DailyCheckIn))
    by reflexivity.
  destruct (W Hfirst Hnone Hsecond) as (_ & _ & _ & Hgap).
  exact Hgap.
Defined.

(** C8 on a concrete input: bob sends nothing that is accepted. *)
Lemma fresh_account_view_witness :
  let txs := [call alice 1700000000 DailyCheckIn; call bob 1700000001 PlayTurn] in
  acted (chain := clear_chain) bob (constructor house) txs = false /\
  getPlayerInfo (run (chain := clear_chain) (constructor house) txs) bob = (0, 0, 0) /\
  canCheckIn (run (chain := clear_chain) (constructor house) txs) 1700000002 bob = Ok true.
Proof.
  intros txs.
  assert (Hno : acted (chain := clear_chain) bob (constructor house) txs = false)
    by reflexivity.
  assert (Hnow : is_block_timestamp 1700000002) by (vm_compute; split; [reflexivity | discriminate]).
  split; [exact Hno|].
  exact (fresh_account_view (chain := clear_chain) house txs bob 1700000002 Hno Hnow).
Defined.

(** C9 on a concrete input: alice checks in within the block of her first
    purchase. *)
Lemma purchase_only_check_in_witness :
  canCheckIn purchased 1700000000 alice = Ok true /\
  availableTurns
    (player_at (post (transact (chain := clear_chain) purchased
                        (call alice 1700000000 DailyCheckIn))) alice) = 4.
Proof.
  pose proof (purchase_only_check_in (chain := clear_chain) house [] [] alice 1700000000 1
                TURN_PRICE 1700000000) as W.
  cbv zeta in W.
  assert (Hfresh : acted (chain := clear_chain) alice (constructor house) [] = false)
    by reflexivity.
  assert (Hbuy : succeeds (chain := clear_chain) (constructor house) first_purchase)
    by reflexivity.
  assert (Hidle : acted (chain := clear_chain) alice purchased [] = false)
    by reflexivity.
  assert (Hnow : is_block_timestamp 1700000000)
    by (vm_compute; split; [reflexivity | discriminate]).
  destruct (W Hfresh Hbuy Hidle Hnow) as (_ & _ & Hcan & _ & Hturns & _).
  split; [exact Hcan | exact Hturns].
Defined.


(** * Further properties of the contract *)

Section Bookkeeping.
Context {chain : Chain}.

Lemma accepted_true_iff (s : State) (tx : Tx) :
  accepted s tx = true <-> failure (transact s tx) = None.
Proof. unfold accepted. destruct (failure (transact s tx)); intuition discriminate. Qed.

Lemma accepted_false_post (s : State) (tx : Tx) :
  accepted s tx = false -> post (transact s tx) = s.
Proof.
  intros H. apply transact_rejected. intros Hok.
  apply accepted_true_iff in Hok. congruence.
Qed.

(** One call moves the two counters of an account by what it grants and by
    the turn it plays. *)
Lemma counters_step (s : State) (tx : Tx) (a : address) :
  let p := player_at s a in
  let p' := player_at (post (transact s tx)) a in
  let g := if sent_by a tx && accepted s tx then turns_granted_by (tx_call tx) else 0 in
  let k := if sent_by a tx && is_play_tx tx && accepted s tx then 1 else 0 in
  gamesPlayed p' = gamesPlayed p + k /\
  availableTurns p' = availableTurns p + g - k.
Proof.
  cbv zeta. destruct (accepted s tx) eqn:Hacc.
  2: { rewrite (accepted_false_post s tx Hacc), !andb_false_r. lia. }
  rewrite !andb_true_r. unfold sent_by, is_play_tx.
  destruct (Z.eqb_spec (msg_sender (tx_env tx)) a) as [Heq|Hne]; simpl.
  2: { rewrite transact_other_player by congruence. lia. }
  apply accepted_true_iff, transact_accepted in Hacc. unfold effect_of in Hacc.
  destruct tx as [e c]; simpl in *. subst a.
  destruct c; simpl in Hacc |- *.
  - destruct Hacc as (_ & _ & -> & _). rewrite player_at_checked_in.
    destruct (decide _); [simpl; lia | congruence].
  - destruct Hacc as (_ & _ & _ & _ & -> & _). rewrite player_at_bought.
    destruct (decide _); [simpl | congruence].
    destruct (lastCheckInTime (player_at s (msg_sender e)) =? 0); simpl; lia.
  - destruct Hacc as (_ & _ & (score & _ & ->) & _). rewrite player_at_dropped.
    destruct (decide _); [simpl; lia | congruence].
  - destruct Hacc as (_ & _ & -> & _). rewrite player_at_played.
    destruct (decide _); [simpl; lia | congruence].
  - destruct Hacc as (_ & _ & _ & -> & _). unfold player_at; simpl. lia.
  - destruct Hacc as (_ & _ & -> & _). unfold player_at; simpl. lia.
Qed.

Lemma plays_nonneg (a : address) (txs : list Tx) (s : State) : 0 <= plays a s txs.
Proof.
  revert s. induction txs as [|tx txs IH]; intros s; simpl; [lia|].
  specialize (IH (post (transact s tx))).
  destruct (sent_by a tx && is_play_tx tx && accepted s tx); lia.
Qed.

Lemma turns_are_conserved_from (s : State) (txs : list Tx) (a : address) :
  gamesPlayed (player_at (run s txs) a) = gamesPlayed (player_at s a) + plays a s txs /\
  availableTurns (player_at (run s txs) a)
    = availableTurns (player_at s a) + granted a s txs - plays a s txs.
Proof.
  revert s. induction txs as [|tx txs IH]; intros s; simpl; [lia|].
  destruct (IH (post (transact s tx))) as [-> ->].
  pose proof (counters_step s tx a) as [-> ->]. lia.
Qed.

(** X1: along any history, from any state, an account's [gamesPlayed] grows
    by exactly the number of its accepted plays (so it never decreases), and
    its [availableTurns] by the turns its accepted check-ins (3 each) and
    purchases (the count bought) granted, minus those plays: a turn is
    created only by a check-in or a purchase and is used up only by a play. *)
Theorem turns_are_conserved (s : State) (txs : list Tx) (a : address) :
  gamesPlayed (player_at (run s txs) a) = gamesPlayed (player_at s a) + plays a s txs /\
  availableTurns (player_at (run s txs) a)
    = availableTurns (player_at s a) + granted a s txs - plays a s txs /\
  gamesPlayed (player_at s a) <= gamesPlayed (player_at (run s txs) a).
Proof.
  destruct (turns_are_conserved_from s txs a) as [Hg Ht].
  pose proof (plays_nonneg a txs s). lia.
Qed.

End Bookkeeping.

Section Storage.
Context {chain : Chain}.

Lemma range_step (s : State) (tx : Tx) :
  wf_tx tx ->
  (forall a, player_in_range (player_at s a)) ->
  forall a, player_in_range (player_at (post (transact s tx)) a).
Proof.
  intros (_ & Hnow & _) Hall a.
  assert (Hone : 1 <= MAX_UINT256) by (vm_compute; discriminate).
  destruct (accepted_or_rejected s tx) as [Hok|Hko].
  2: { apply transact_rejected in Hko as [-> _]. apply Hall. }
  destruct (decide (a = msg_sender (tx_env tx))) as [->|Hne].
  2: { rewrite transact_other_player by exact Hne. apply Hall. }
  apply transact_accepted in Hok. unfold effect_of in Hok.
  pose proof (Hall (msg_sender (tx_env tx))) as (Hl & Ht & Hg).
  unfold player_in_range, is_uint256 in *. unfold DAILY_FREE_TURNS in Hok.
  destruct tx as [e c]; simpl in *. destruct c; simpl in Hok.
  - destruct Hok as (_ & Hfit & -> & _). rewrite player_at_checked_in.
    destruct (decide _); [simpl; unfold DAILY_FREE_TURNS; lia | congruence].
  - destruct Hok as (Hpos & _ & _ & Hfit & -> & _). rewrite player_at_bought.
    destruct (decide _); [simpl | congruence].
    destruct (lastCheckInTime (player_at s (msg_sender e)) =? 0); simpl; lia.
  - destruct Hok as (Hpos & Hfit & (score & _ & ->) & _). rewrite player_at_dropped.
    destruct (decide _); [simpl; lia | congruence].
  - destruct Hok as (Hpos & Hfit & -> & _). rewrite player_at_played.
    destruct (decide _); [simpl; lia | congruence].
  - destruct Hok as (_ & _ & _ & -> & _). unfold player_at; simpl. exact (Hall _).
  - destruct Hok as (_ & _ & -> & _). unfold player_at; simpl. exact (Hall _).
Qed.

(** X2: in every reachable state the three counters of every account --
    [lastCheckInTime], [availableTurns], [gamesPlayed] -- lie in
    [0 .. 2^256-1]: the checked arithmetic never lets a stored value wrap, and
    in particular [availableTurns] is never negative. *)
Theorem storage_stays_in_range (s : State) (a : address) :
  reachable s -> player_in_range (player_at s a).
Proof.
  intros (d & txs & _ & Hwf & ->). revert a.
  assert (H0 : forall a, player_in_range (player_at (constructor d) a)).
  { intros a. unfold player_at; simpl. rewrite lookup_empty; simpl.
    repeat split; try reflexivity; vm_compute; discriminate. }
  revert H0. generalize (constructor d) as s.
  induction Hwf as [|tx txs Htx Hwf IH]; intros s Hs; simpl; [exact Hs|].
  apply IH. now apply range_step.
Qed.

Lemma registry_step (s : State) (tx : Tx) :
  exists more, playerAddresses (post (transact s tx)) = playerAddresses s ++ more.
Proof.
  destruct (accepted_or_rejected s tx) as [Hok|Hko].
  2: { apply transact_rejected in Hko as [-> _]. exists []. now rewrite app_nil_r. }
  apply transact_accepted in Hok. unfold effect_of in Hok.
  destruct tx as [e c]; simpl in *. destruct c; simpl in Hok.
  - destruct Hok as (_ & _ & -> & _). unfold checked_in; simpl.
    destruct (_ =? 0); [now eexists | exists []; now rewrite app_nil_r].
  - destruct Hok as (_ & _ & _ & _ & -> & _). unfold bought; simpl.
    destruct (_ =? 0); [now eexists | exists []; now rewrite app_nil_r].
  - destruct Hok as (_ & _ & (score & _ & ->) & _). exists []. now rewrite app_nil_r.
  - destruct Hok as (_ & _ & -> & _). exists []. now rewrite app_nil_r.
  - destruct Hok as (_ & _ & _ & -> & _). exists []. now rewrite app_nil_r.
  - destruct Hok as (_ & _ & -> & _). exists []. now rewrite app_nil_r.
Qed.

(** X3: the registry is append-only: whatever calls follow, the registry of
    the later state starts with the registry of the earlier one, so an
    address keeps its index for ever and [getTotalPlayers] never decreases. *)
Theorem registry_is_append_only (s : State) (txs : list Tx) :
  (exists more, playerAddresses (run s txs) = playerAddresses s ++ more) /\
  (forall (i : nat) (a : address),
     playerAddresses s !! i = Some a -> playerAddresses (run s txs) !! i = Some a) /\
  getTotalPlayers s <= getTotalPlayers (run s txs).
Proof.
  assert (H : exists more, playerAddresses (run s txs) = playerAddresses s ++ more).
  { revert s. induction txs as [|tx txs IH]; intros s; simpl.
    - exists []. now rewrite app_nil_r.
    - destruct (IH (post (transact s tx))) as (m2 & ->).
      destruct (registry_step s tx) as (m1 & ->).
      exists (m1 ++ m2). now rewrite app_assoc. }
  split; [exact H|]. destruct H as (more & Hmore). split.
  - intros i a Hi. rewrite Hmore. now apply lookup_app_l_Some.
  - unfold getTotalPlayers. rewrite Hmore, length_app. lia.
Qed.

(** A set [lastCheckInTime] of a day or more stays so. *)
Lemma checked_in_stays (s : State) (tx : Tx) (a : address) :
  ledger_inv s ->
  SECONDS_PER_DAY <= lastCheckInTime (player_at s a) \/
    sent_by a tx && is_check_in tx && accepted s tx = true ->
  SECONDS_PER_DAY <= lastCheckInTime (player_at (post (transact s tx)) a).
Proof.
  intros [_ Hinv] Hcase. destruct (Hinv a) as (Ha0 & _ & _); cbv zeta in Ha0.
  destruct (sent_by a tx && is_check_in tx && accepted s tx) eqn:Hci.
  - apply andb_prop in Hci as [Hci Hacc]. apply andb_prop in Hci as [Hsent Hci].
    apply accepted_true_iff, transact_accepted in Hacc. unfold effect_of in Hacc.
    unfold sent_by in Hsent. apply Z.eqb_eq in Hsent. unfold is_check_in in Hci.
    destruct tx as [e c]; simpl in *. subst a.
    destruct c; try discriminate. simpl in Hacc.
    destruct Hacc as (Hdue & _ & -> & _). rewrite player_at_checked_in.
    destruct (decide _); [simpl; lia | congruence].
  - destruct Hcase as [Hday|]; [|discriminate].
    rewrite lastCheckInTime_kept_step; auto.
    unfold SECONDS_PER_DAY in Hday. lia.
Qed.

Lemma checked_in_during_day (txs : list Tx) (s : State) (a : address) :
  ledger_inv s ->
  SECONDS_PER_DAY <= lastCheckInTime (player_at s a) \/ checked_in_during a s txs = true ->
  SECONDS_PER_DAY <= lastCheckInTime (player_at (run s txs) a).
Proof.
  revert s. induction txs as [|tx txs IH]; intros s Hinv Hcase; simpl.
  - destruct Hcase as [H|H]; [exact H | discriminate].
  - apply IH; [now apply ledger_inv_step|].
    unfold checked_in_during in *; simpl in Hcase.
    destruct Hcase as [H|H].
    + left. apply checked_in_stays; auto.
    + apply orb_true_iff in H as [H|H]; [|now right].
      left. apply checked_in_stays; auto.
Qed.

(** A purchase of an account that has not joined leaves the sentinel. *)
Lemma sentinel_step (s : State) (tx : Tx) (a : address) :
  lastCheckInTime (player_at s a) = 0 ->
  sent_by a tx && is_check_in tx && accepted s tx = false ->
  lastCheckInTime (player_at (post (transact s tx)) a)
    = if is_join a tx && accepted s tx then 1 else 0.
Proof.
  intros Hz Hno. unfold is_join.
  destruct (accepted s tx) eqn:Hacc.
  2: { rewrite (accepted_false_post s tx Hacc), andb_false_r. exact Hz. }
  rewrite andb_true_r in *. unfold sent_by in *.
  destruct (Z.eqb_spec (msg_sender (tx_env tx)) a) as [Heq|Hne]; simpl in *.
  2: { rewrite transact_other_player by congruence. exact Hz. }
  apply accepted_true_iff, transact_accepted in Hacc. unfold effect_of in Hacc.
  unfold is_check_in, is_purchase in *.
  destruct tx as [e c]; simpl in *. subst a.
  destruct c; simpl in Hacc |- *; try discriminate.
  - destruct Hacc as (_ & _ & _ & _ & -> & _). rewrite player_at_bought.
    destruct (decide _); [simpl | congruence]. rewrite Hz. reflexivity.
  - destruct Hacc as (_ & _ & (score & _ & ->) & _). rewrite player_at_dropped.
    destruct (decide _); [simpl; exact Hz | congruence].
  - destruct Hacc as (_ & _ & -> & _). rewrite player_at_played.
    destruct (decide _); [simpl; exact Hz | congruence].
  - destruct Hacc as (_ & _ & _ & -> & _). exact Hz.
  - destruct Hacc as (_ & _ & -> & _). exact Hz.
Qed.

Lemma sentinel_run (txs : list Tx) (s : State) (a : address) :
  lastCheckInTime (player_at s a) = 0 ->
  checked_in_during a s txs = false ->
  lastCheckInTime (player_at (run s txs) a) = if joined a s txs then 1 else 0.
Proof.
  revert s. induction txs as [|tx txs IH]; intros s Hz Hno; simpl; [exact Hz|].
  unfold checked_in_during in *; simpl in Hno. apply orb_false_iff in Hno as [Hno1 Hno2].
  pose proof (sentinel_step s tx a Hz Hno1) as Hstep.
  unfold joined; simpl. destruct (is_join a tx && accepted s tx); simpl.
  - rewrite lastCheckInTime_kept; [exact Hstep | rewrite Hstep; discriminate | exact Hno2].
  - now apply IH.
Qed.

(** X4: the three meanings of [lastCheckInTime] in a deployed contract: it
    is 0 exactly for an account that has not joined, it is the sentinel 1 for
    an account that has purchased but never checked in, and it is at least
    86400 for an account that has checked in -- so the sentinel can never be
    mistaken for the time of a check-in. *)
Theorem lastCheckInTime_meaning (deployer : address) (txs : list Tx) (a : address) :
  let s := run (constructor deployer) txs in
  let last := lastCheckInTime (player_at s a) in
  (joined a (constructor deployer) txs = false <-> last = 0) /\
  (joined a (constructor deployer) txs = true ->
   checked_in_during a (constructor deployer) txs = false -> last = 1) /\
  (checked_in_during a (constructor deployer) txs = true -> 86400 <= last).
Proof.
  intros s last. subst s last. split; [apply not_joined_iff|]. split.
  - intros Hj Hno. rewrite sentinel_run; [now rewrite Hj | | exact Hno].
    unfold player_at; simpl. now rewrite lookup_empty.
  - intros Hci. apply (checked_in_during_day txs (constructor deployer) a).
    + apply ledger_inv_constructor.
    + now right.
Qed.

End Storage.

Section Failures.
Context {chain : Chain}.

Lemma failure_dailyCheckIn (s : State) (a : address) (now : Z) :
  failure (transact s (call a now DailyCheckIn)) =
    let p := player_at s a in
    if lastCheckInTime p + SECONDS_PER_DAY <=? MAX_UINT256 then
      if lastCheckInTime p + SECONDS_PER_DAY <=? now then
        if availableTurns p + DAILY_FREE_TURNS <=? MAX_UINT256 then None
        else Some (Panic 0x11)
      else Some (Revert "Already checked in today")
    else Some (Panic 0x11).
Proof.
  unfold transact, call; simpl. rewrite dailyCheckIn_run; cbv zeta; simpl.
  repeat (destruct (_ <=? _); simpl; try reflexivity).
Qed.

Lemma failure_buyTurns (s : State) (a : address) (now turnCount msg_value : Z) :
  failure (transact s (call a now (BuyTurns turnCount msg_value))) =
    if 0 <? turnCount then
      if turnCount * TURN_PRICE <=? MAX_UINT256 then
        if msg_value =? turnCount * TURN_PRICE then
          if availableTurns (player_at s a) + turnCount <=? MAX_UINT256 then None
          else Some (Panic 0x11)
        else Some (Revert "Incorrect payment amount")
      else Some (Panic 0x11)
    else Some (Revert "Must buy at least 1 turn").
Proof.
  unfold transact, call; simpl. rewrite buyTurns_run; cbv zeta; simpl.
  destruct (0 <? turnCount); [|reflexivity].
  destruct (turnCount * TURN_PRICE <=? MAX_UINT256); [|reflexivity].
  destruct (msg_value =? turnCount * TURN_PRICE); [|reflexivity].
  destruct (_ <=? MAX_UINT256); reflexivity.
Qed.

Lemma failure_playTurn (s : State) (a : address) (now : Z) :
  failure (transact s (call a now PlayTurn)) =
    if 0 <? availableTurns (player_at s a) then
      if gamesPlayed (player_at s a) + 1 <=? MAX_UINT256 then None
      else Some (Panic 0x11)
    else Some (Revert "No turns available").
Proof.
  unfold transact, call; simpl. rewrite playTurn_run; cbv zeta; simpl.
  destruct (0 <? _); [|reflexivity]. destruct (_ <=? MAX_UINT256); reflexivity.
Qed.

Lemma failure_dropBall (s : State) (a : address) (now : Z)
    (encryptedScore : externalEuint32) (inputProof : list Z) :
  failure (transact s (call a now (DropBall encryptedScore inputProof))) =
    if 0 <? availableTurns (player_at s a) then
      match FHE_fromExternal a encryptedScore inputProof with
      | Some _ =>
          if gamesPlayed (player_at s a) + 1 <=? MAX_UINT256 then None
          else Some (Panic 0x11)
      | None => Some InvalidProof
      end
    else Some (Revert "No turns available").
Proof.
  unfold transact, call; simpl. rewrite dropBall_run; cbv zeta; simpl.
  destruct (0 <? _); [|reflexivity].
  destruct (FHE_fromExternal _ _ _); [|reflexivity].
  destruct (_ <=? MAX_UINT256); reflexivity.
Qed.

Lemma failure_withdraw (s : State) (a : address) (now : Z) :
  failure (transact s (call a now Withdraw)) =
    if a =? owner s then
      if 0 <? balance s then
        if accepts_ether (owner s) then None else Some TransferFailed
      else Some (Revert "No balance to withdraw")
    else Some (Revert "Only owner can call this function").
Proof.
  unfold transact, call; simpl. rewrite withdraw_run; simpl.
  destruct (a =? owner s); [|reflexivity].
  destruct (0 <? balance s); [|reflexivity].
  destruct (accepts_ether _); reflexivity.
Qed.

Lemma failure_transferOwnership (s : State) (a : address) (now : Z) (newOwner : address) :
  failure (transact s (call a now (TransferOwnership newOwner))) =
    if a =? owner s then
      if newOwner =? 0 then Some (Revert "Invalid new owner address") else None
    else Some (Revert "Only owner can call this function").
Proof.
  unfold transact, call; simpl. rewrite transferOwnership_run; simpl.
  destruct (a =? owner s); [|reflexivity].
  destruct (newOwner =? 0); reflexivity.
Qed.

(** X5: [canCheckIn] tells what [dailyCheckIn] will do at the same time: the
    call is accepted exactly when the view returns true and the 3 free turns
    still fit; when the view returns false the call reverts with "Already
    checked in today"; and the view fails exactly when
    [lastCheckInTime + 86400] overflows, with the same panic as the call. *)
Theorem canCheckIn_predicts_dailyCheckIn (s : State) (a : address) (now : Z) :
  (succeeds s (call a now DailyCheckIn) <->
     canCheckIn s now a = Ok true /\
     availableTurns (player_at s a) + DAILY_FREE_TURNS <= MAX_UINT256) /\
  (canCheckIn s now a = Ok false ->
     failure (transact s (call a now DailyCheckIn))
       = Some (Revert "Already checked in today")) /\
  (MAX_UINT256 < lastCheckInTime (player_at s a) + SECONDS_PER_DAY <->
     canCheckIn s now a = Err (Panic 0x11)) /\
  (canCheckIn s now a = Err (Panic 0x11) ->
     failure (transact s (call a now DailyCheckIn)) = Some (Panic 0x11)).
Proof.
  unfold succeeds. rewrite failure_dailyCheckIn. unfold canCheckIn, checked_add; cbv zeta.
  destruct (Z.leb_spec (lastCheckInTime (player_at s a) + SECONDS_PER_DAY) MAX_UINT256);
    simpl.
  - destruct (Z.leb_spec (lastCheckInTime (player_at s a) + SECONDS_PER_DAY) now); simpl.
    + destruct (Z.leb_spec (availableTurns (player_at s a) + DAILY_FREE_TURNS) MAX_UINT256).
      * intuition (try discriminate; try lia).
      * intuition (try discriminate; try lia).
    + intuition (try discriminate; try lia).
  - intuition (try discriminate; try lia).
Qed.

(** X6: an accepted [dailyCheckIn] at time [now] closes the next 86400
    seconds: until [now + 86400] the view [canCheckIn] is false and a further
    [dailyCheckIn] of the account reverts with "Already checked in today";
    from [now + 86400] on the view is true again.  (A check-in so late that
    [now + 86400] overflows leaves both panicking at every time.) *)
Theorem check_in_closes_the_day (s : State) (a : address) (now t : Z) :
  succeeds s (call a now DailyCheckIn) ->
  let s' := post (transact s (call a now DailyCheckIn)) in
  (now + SECONDS_PER_DAY <= MAX_UINT256 ->
     canCheckIn s' t a = Ok (now + SECONDS_PER_DAY <=? t) /\
     (t < now + SECONDS_PER_DAY ->
        failure (transact s' (call a t DailyCheckIn))
          = Some (Revert "Already checked in today"))) /\
  (MAX_UINT256 < now + SECONDS_PER_DAY ->
     canCheckIn s' t a = Err (Panic 0x11) /\
     failure (transact s' (call a t DailyCheckIn)) = Some (Panic 0x11)).
Proof.
  intros Hok s'. apply transact_accepted in Hok. unfold effect_of in Hok; simpl in Hok.
  destruct Hok as (_ & _ & Hs' & _). fold s' in Hs'.
  assert (Hlast : lastCheckInTime (player_at s' a) = now).
  { rewrite Hs', player_at_checked_in; simpl. now destruct (decide (a = a)). }
  rewrite failure_dailyCheckIn. unfold canCheckIn, checked_add; cbv zeta. rewrite Hlast.
  split; intros Hfit.
  - apply Z.leb_le in Hfit. rewrite Hfit; simpl. split; [reflexivity|].
    intros Hearly. apply Z.leb_gt in Hearly. now rewrite Hearly.
  - apply Z.leb_gt in Hfit. rewrite Hfit; simpl. auto.
Qed.

(** X7: the reasons of the player entry points, in the order the code
    checks: [buyTurns] with a count of zero reverts with "Must buy at least 1
    turn" whatever is paid, and with a positive count whose price fits and a
    payment that differs, with "Incorrect payment amount"; [playTurn] and
    [dropBall] without a turn revert with "No turns available" -- [dropBall]
    even when its proof is invalid, while with a turn an invalid proof is
    refused by the coprocessor. *)
Theorem player_revert_reasons (s : State) (a : address) (now : Z) :
  (forall turnCount msg_value,
     turnCount <= 0 ->
     failure (transact s (call a now (BuyTurns turnCount msg_value)))
       = Some (Revert "Must buy at least 1 turn")) /\
  (forall turnCount msg_value,
     0 < turnCount -> turnCount * TURN_PRICE <= MAX_UINT256 ->
     msg_value <> turnCount * TURN_PRICE ->
     failure (transact s (call a now (BuyTurns turnCount msg_value)))
       = Some (Revert "Incorrect payment amount")) /\
  (availableTurns (player_at s a) <= 0 ->
     failure (transact s (call a now PlayTurn)) = Some (Revert "No turns available") /\
     forall encryptedScore inputProof,
       failure (transact s (call a now (DropBall encryptedScore inputProof)))
         = Some (Revert "No turns available")) /\
  (forall encryptedScore inputProof,
     0 < availableTurns (player_at s a) ->
     FHE_fromExternal a encryptedScore inputProof = None ->
     failure (transact s (call a now (DropBall encryptedScore inputProof)))
       = Some InvalidProof).
Proof.
  split; [|split; [|split]].
  - intros n v Hn. rewrite failure_buyTurns.
    apply Z.ltb_ge in Hn. now rewrite Hn.
  - intros n v Hn Hfit Hne. rewrite failure_buyTurns.
    apply Z.ltb_lt in Hn. apply Z.leb_le in Hfit. apply Z.eqb_neq in Hne.
    now rewrite Hn, Hfit, Hne.
  - intros Hnone. apply Z.ltb_ge in Hnone. split.
    + rewrite failure_playTurn. now rewrite Hnone.
    + intros h pr. rewrite failure_dropBall. now rewrite Hnone.
  - intros h pr Hpos Hbad. rewrite failure_dropBall.
    apply Z.ltb_lt in Hpos. now rewrite Hpos, Hbad.
Qed.

(** X8: a purchase too large to be priced -- a count above
    [(2^256 - 1) / TURN_PRICE] -- panics on the multiplication, whatever is
    paid and whatever the state; so no single purchase can grant more turns
    than that. *)
Theorem oversized_purchase_panics (s : State) (a : address) (now turnCount msg_value : Z) :
  MAX_UINT256 / TURN_PRICE < turnCount ->
  failure (transact s (call a now (BuyTurns turnCount msg_value))) = Some (Panic 0x11).
Proof.
  intros Hbig. rewrite failure_buyTurns.
  assert (Hmax : 0 <= MAX_UINT256 / TURN_PRICE) by (vm_compute; discriminate).
  assert (Hpos : (0 <? turnCount) = true) by (apply Z.ltb_lt; lia).
  assert (Hover : (turnCount * TURN_PRICE <=? MAX_UINT256) = false).
  { apply Z.leb_gt.
    assert (Hdm : MAX_UINT256 < (MAX_UINT256 / TURN_PRICE + 1) * TURN_PRICE)
      by (vm_compute; reflexivity).
    assert ((MAX_UINT256 / TURN_PRICE + 1) * TURN_PRICE <= turnCount * TURN_PRICE).
    { apply Z.mul_le_mono_nonneg_r; [vm_compute; discriminate | lia]. }
    lia. }
  now rewrite Hpos, Hover.
Qed.

End Failures.

Section Administration.
Context {chain : Chain}.

(** X9: [withdraw] is accepted exactly when the caller is the owner, the
    contract holds ether and the owner's account takes the transfer; it then
    empties the contract, logs [Withdrawal(owner, amount)] with the whole
    former balance and changes nothing else, so that a second [withdraw]
    right after reverts with "No balance to withdraw".  A caller other than
    the owner gets "Only owner can call this function" even when the
    contract is empty; a refused transfer leaves the funds in the contract. *)
Theorem withdraw_spec (s : State) (a : address) (now : Z) :
  let tx := call a now Withdraw in
  let s' := post (transact s tx) in
  (succeeds s tx <-> a = owner s /\ 0 < balance s /\ accepts_ether (owner s) = true) /\
  (succeeds s tx ->
     balance s' = 0 /\
     logs (transact s tx) = [Withdrawal (owner s) (balance s)] /\
     players s' = players s /\ playerAddresses s' = playerAddresses s /\
     owner s' = owner s /\ acl s' = acl s /\
     forall t, failure (transact s' (call a t Withdraw))
               = Some (Revert "No balance to withdraw")) /\
  (a <> owner s ->
     failure (transact s tx) = Some (Revert "Only owner can call this function")) /\
  (a = owner s -> balance s <= 0 ->
     failure (transact s tx) = Some (Revert "No balance to withdraw")) /\
  (a = owner s -> 0 < balance s -> accepts_ether (owner s) = false ->
     failure (transact s tx) = Some TransferFailed /\ balance s' = balance s).
Proof.
  intros tx s'. subst tx s'. unfold succeeds.
  split; [|split; [|split; [|split]]].
  - rewrite failure_withdraw.
    destruct (Z.eqb_spec a (owner s)); [|intuition discriminate].
    destruct (Z.ltb_spec 0 (balance s)); [|split; [discriminate | lia]].
    destruct (accepts_ether (owner s)); intuition discriminate.
  - intros Hok. apply transact_accepted in Hok. unfold effect_of in Hok; simpl in Hok.
    destruct Hok as (Hown & _ & _ & -> & ->). simpl.
    repeat split; try lia. intros t. rewrite failure_withdraw; simpl.
    apply Z.eqb_eq in Hown. rewrite Hown.
    replace (balance s - balance s) with 0 by lia. reflexivity.
  - intros Hne. rewrite failure_withdraw. apply Z.eqb_neq in Hne. now rewrite Hne.
  - intros Heq Hz. rewrite failure_withdraw. apply Z.eqb_eq in Heq. apply Z.ltb_ge in Hz.
    now rewrite Heq, Hz.
  - intros Heq Hpos Hno.
    assert (Hf : failure (transact s (call a now Withdraw)) = Some TransferFailed).
    { rewrite failure_withdraw. apply Z.eqb_eq in Heq. apply Z.ltb_lt in Hpos.
      now rewrite Heq, Hpos, Hno. }
    split; [exact Hf|].
    assert (Hrej : failure (transact s (call a now Withdraw)) <> None) by congruence.
    apply transact_rejected in Hrej as [-> _]. reflexivity.
Qed.

(** X10: [transferOwnership] is accepted exactly when the caller is the
    owner and the new owner is not the zero address; it then replaces the
    owner and nothing else, and logs no event.  From then on the former
    owner, if it handed over to another account, is refused by both owner
    entry points with "Only owner can call this function".  A caller other
    than the owner gets that reason even for the zero address; the owner
    naming the zero address gets "Invalid new owner address". *)
Theorem ownership_hand_over (s : State) (a : address) (now : Z) (newOwner : address) :
  let tx := call a now (TransferOwnership newOwner) in
  let s' := post (transact s tx) in
  (succeeds s tx <-> a = owner s /\ newOwner <> 0) /\
  (succeeds s tx ->
     s' = set_owner newOwner s /\
     logs (transact s tx) = [] /\
     (newOwner <> a ->
        forall t,
          failure (transact s' (call a t Withdraw))
            = Some (Revert "Only owner can call this function") /\
          forall next,
            failure (transact s' (call a t (TransferOwnership next)))
              = Some (Revert "Only owner can call this function"))) /\
  (a <> owner s ->
     failure (transact s tx) = Some (Revert "Only owner can call this function")) /\
  (a = owner s -> newOwner = 0 ->
     failure (transact s tx) = Some (Revert "Invalid new owner address")).
Proof.
  intros tx s'. subst tx s'. unfold succeeds.
  split; [|split; [|split]].
  - rewrite failure_transferOwnership.
    destruct (Z.eqb_spec a (owner s)); [|intuition discriminate].
    destruct (Z.eqb_spec newOwner 0); intuition discriminate.
  - intros Hok. apply transact_accepted in Hok. unfold effect_of in Hok; simpl in Hok.
    destruct Hok as (_ & _ & -> & ->). split; [reflexivity|]. split; [reflexivity|].
    intros Hne t.
    assert (Hneq : (a =? newOwner) = false) by (apply Z.eqb_neq; congruence).
    split; [|intros next].
    + rewrite failure_withdraw; simpl. now rewrite Hneq.
    + rewrite failure_transferOwnership; simpl. now rewrite Hneq.
  - intros Hne. rewrite failure_transferOwnership. apply Z.eqb_neq in Hne. now rewrite Hne.
  - intros Heq Hz. rewrite failure_transferOwnership.
    apply Z.eqb_eq in Heq. apply Z.eqb_eq in Hz. now rewrite Heq, Hz.
Qed.

Lemma owner_step (s : State) (tx : Tx) :
  owner (post (transact s tx)) = owner s \/
  (msg_sender (tx_env tx) = owner s /\
   exists newOwner,
     tx_call tx = TransferOwnership newOwner /\ newOwner <> 0 /\
     owner (post (transact s tx)) = newOwner).
Proof.
  destruct (accepted_or_rejected s tx) as [Hok|Hko].
  2: { apply transact_rejected in Hko as [-> _]. now left. }
  apply transact_accepted in Hok. unfold effect_of in Hok.
  destruct tx as [e c]; simpl in *. destruct c; simpl in Hok.
  - destruct Hok as (_ & _ & -> & _). now left.
  - destruct Hok as (_ & _ & _ & _ & -> & _). now left.
  - destruct Hok as (_ & _ & (score & _ & ->) & _). now left.
  - destruct Hok as (_ & _ & -> & _). now left.
  - destruct Hok as (_ & _ & _ & -> & _). now left.
  - destruct Hok as (Hown & Hnz & -> & _). right. split; [exact Hown|].
    exists newOwner. auto.
Qed.

(** X11: nobody but the owner can replace the owner: a call after which
    the owner differs is a [transferOwnership] sent by the owner in place,
    naming the new, non-zero owner.  Hence a contract deployed from a
    non-zero address always has a non-zero owner. *)
Theorem owner_is_protected (deployer : address) (txs : list Tx) (tx : Tx) :
  let s := run (constructor deployer) txs in
  (owner (post (transact s tx)) <> owner s ->
     msg_sender (tx_env tx) = owner s /\
     exists newOwner,
       tx_call tx = TransferOwnership newOwner /\ newOwner <> 0 /\
       owner (post (transact s tx)) = newOwner) /\
  (deployer <> 0 -> owner s <> 0).
Proof.
  intros s. split.
  - intros Hne. destruct (owner_step s tx) as [Hsame|Hmove]; [contradiction | exact Hmove].
  - subst s. intros Hd. assert (H0 : owner (constructor deployer) <> 0) by exact Hd.
    revert H0. generalize (constructor deployer) as s.
    induction txs as [|t txs IH]; intros s Hs; simpl; [exact Hs|].
    apply IH. destruct (owner_step s t) as [->|(_ & n & _ & Hnz & ->)]; auto.
Qed.

(** X12: a call writes the record of its caller and of nobody else; the two
    owner entry points write no record and no registry entry at all; the
    owner changes only in [transferOwnership], the ether held only in
    [buyTurns] and [withdraw], and the access-control list only in
    [dropBall]. *)
Theorem calls_touch_only_the_caller (s : State) (tx : Tx) :
  let s' := post (transact s tx) in
  (forall b, b <> msg_sender (tx_env tx) -> player_at s' b = player_at s b) /\
  (is_withdraw tx || is_hand_over tx = true ->
     players s' = players s /\ playerAddresses s' = playerAddresses s) /\
  (is_hand_over tx = false -> owner s' = owner s) /\
  (is_purchase tx || is_withdraw tx = false -> balance s' = balance s) /\
  (is_drop tx = false -> acl s' = acl s).
Proof.
  intros s'. subst s'. split; [intros b Hb; now apply transact_other_player|].
  destruct (accepted_or_rejected s tx) as [Hok|Hko].
  2: { apply transact_rejected in Hko as [-> _]. auto. }
  apply transact_accepted in Hok. unfold effect_of in Hok.
  unfold is_withdraw, is_hand_over, is_purchase, is_drop.
  destruct tx as [e c]; simpl in *. destruct c; simpl in Hok |- *.
  - destruct Hok as (_ & _ & -> & _). repeat split; auto; discriminate.
  - destruct Hok as (_ & _ & _ & _ & -> & _). repeat split; auto; discriminate.
  - destruct Hok as (_ & _ & (score & _ & ->) & _). repeat split; auto; discriminate.
  - destruct Hok as (_ & _ & -> & _). repeat split; auto; discriminate.
  - destruct Hok as (_ & _ & _ & -> & _). repeat split; auto; discriminate.
  - destruct Hok as (_ & _ & -> & _). repeat split; auto; discriminate.
Qed.

End Administration.

Section Scores.
Context {chain : Chain}.

(** X13: [dropBall] is accepted exactly when the caller has a turn, the
    coprocessor accepts the input proof, and [gamesPlayed + 1] fits; the
    caller's score handle then becomes [FHE.add] of the former handle and
    the verified input, the caller and the contract itself are both granted
    access to the new handle, and every earlier grant is kept. *)
Theorem dropBall_spec (s : State) (a : address) (now : Z)
    (encryptedScore : externalEuint32) (inputProof : list Z) :
  let tx := call a now (DropBall encryptedScore inputProof) in
  let s' := post (transact s tx) in
  (succeeds s tx <->
     0 < availableTurns (player_at s a) /\
     is_Some (FHE_fromExternal a encryptedScore inputProof) /\
     gamesPlayed (player_at s a) + 1 <= MAX_UINT256) /\
  (forall score,
     FHE_fromExternal a encryptedScore inputProof = Some score ->
     succeeds s tx ->
     getPlayerScore s' a = FHE_add (getPlayerScore s a) score /\
     (getPlayerScore s' a, a) ∈ acl s' /\
     (getPlayerScore s' a, this) ∈ acl s' /\
     (forall grant, grant ∈ acl s -> grant ∈ acl s')).
Proof.
  intros tx s'. subst tx s'. unfold succeeds. split.
  - rewrite failure_dropBall.
    destruct (Z.ltb_spec 0 (availableTurns (player_at s a))); [|split; [discriminate | lia]].
    destruct (FHE_fromExternal a encryptedScore inputProof) as [score|].
    + destruct (Z.leb_spec (gamesPlayed (player_at s a) + 1) MAX_UINT256).
      * split; auto.
      * split; [discriminate | lia].
    + split; [discriminate|]. intros (_ & [x Hx] & _). discriminate.
  - intros score Hscore Hok. apply transact_accepted in Hok.
    unfold effect_of in Hok; simpl in Hok.
    destruct Hok as (_ & _ & (score' & Hscore' & ->) & _).
    rewrite Hscore in Hscore'. injection Hscore' as <-.
    unfold getPlayerScore.
    assert (Hp : totalScore (player_at (dropped (mkEnv a now) score s) a)
                 = FHE_add (totalScore (player_at s a)) score).
    { rewrite player_at_dropped; simpl. now destruct (decide (a = a)). }
    rewrite Hp. unfold dropped; simpl.
    rewrite !elem_of_app, !elem_of_cons. repeat split; auto.
    intros grant Hin. rewrite !elem_of_app. auto.
Qed.

(** X14: the two play variants agree on everything public: when the proof
    of a [dropBall] is valid, it is accepted exactly when [playTurn] would
    be, it logs the same two events, and it leaves every account with the
    same [getPlayerInfo], and the same registry, owner and balance;
    [playTurn] for its part leaves the caller's score handle and the
    access-control list untouched. *)
Theorem play_variants_agree (s : State) (a : address) (now : Z)
    (encryptedScore : externalEuint32) (inputProof : list Z) :
  is_Some (FHE_fromExternal a encryptedScore inputProof) ->
  let drop := transact s (call a now (DropBall encryptedScore inputProof)) in
  let play := transact s (call a now PlayTurn) in
  failure drop = failure play /\
  logs drop = logs play /\
  (forall b, getPlayerInfo (post drop) b = getPlayerInfo (post play) b) /\
  playerAddresses (post drop) = playerAddresses (post play) /\
  owner (post drop) = owner (post play) /\
  balance (post drop) = balance (post play) /\
  getPlayerScore (post play) a = getPlayerScore s a /\
  acl (post play) = acl s.
Proof.
  intros [score Hscore] drop play. subst drop play.
  unfold transact, call; simpl. rewrite dropBall_run, playTurn_run; cbv zeta.
  cbn [msg_sender block_timestamp]. rewrite Hscore.
  destruct (0 <? availableTurns (player_at s a)); [|simpl; auto 10].
  destruct (gamesPlayed (player_at s a) + 1 <=? MAX_UINT256); [|simpl; auto 10].
  simpl. repeat split; auto.
  - intros b. unfold getPlayerInfo.
    pose proof (player_at_dropped (mkEnv a now) score s b) as Hd.
    pose proof (player_at_played (mkEnv a now) s b) as Hp.
    simpl in Hd, Hp. rewrite Hd, Hp. now destruct (decide (b = a)).
  - unfold getPlayerScore.
    pose proof (player_at_played (mkEnv a now) s a) as Hp. simpl in Hp.
    rewrite Hp. now destruct (decide (a = a)).
Qed.

Lemma acl_step (s : State) (tx : Tx) (grant : euint32 * address) :
  grant ∈ acl s -> grant ∈ acl (post (transact s tx)).
Proof.
  intros Hin. destruct (is_drop tx) eqn:Hd.
  - destruct (accepted_or_rejected s tx) as [Hok|Hko].
    2: { apply transact_rejected in Hko as [-> _]. exact Hin. }
    apply transact_accepted in Hok. unfold effect_of in Hok. unfold is_drop in Hd.
    destruct tx as [e c]; simpl in *. destruct c; try discriminate. simpl in Hok.
    destruct Hok as (_ & _ & (score & _ & ->) & _). simpl.
    rewrite !elem_of_app. auto.
  - destruct (accepted_or_rejected s tx) as [Hok|Hko].
    2: { apply transact_rejected in Hko as [-> _]. exact Hin. }
    apply transact_accepted in Hok. unfold effect_of in Hok. unfold is_drop in Hd.
    destruct tx as [e c]; simpl in *. destruct c; try discriminate; simpl in Hok.
    + destruct Hok as (_ & _ & -> & _). exact Hin.
    + destruct Hok as (_ & _ & _ & _ & -> & _). exact Hin.
    + destruct Hok as (_ & _ & -> & _). exact Hin.
    + destruct Hok as (_ & _ & _ & -> & _). exact Hin.
    + destruct Hok as (_ & _ & -> & _). exact Hin.
Qed.

Lemma score_step (s : State) (tx : Tx) (a : address) :
  (sent_by a tx && is_drop tx && accepted s tx = true -> decryptable (post (transact s tx)) a) /\
  (sent_by a tx && is_drop tx && accepted s tx = false ->
     getPlayerScore (post (transact s tx)) a = getPlayerScore s a).
Proof.
  unfold decryptable, getPlayerScore. destruct (accepted s tx) eqn:Hacc.
  2: { rewrite (accepted_false_post s tx Hacc), andb_false_r.
       split; [discriminate | reflexivity]. }
  rewrite andb_true_r. unfold sent_by, is_drop.
  destruct (Z.eqb_spec (msg_sender (tx_env tx)) a) as [Heq|Hne]; simpl.
  2: { split; [discriminate|]. intros _. now rewrite transact_other_player by congruence. }
  apply accepted_true_iff, transact_accepted in Hacc. unfold effect_of in Hacc.
  destruct tx as [e c]; simpl in *. subst a.
  destruct c; simpl in Hacc |- *; (split; [try discriminate | try discriminate]).
  - intros _. destruct Hacc as (_ & _ & -> & _). rewrite player_at_checked_in.
    now destruct (decide _).
  - intros _. destruct Hacc as (_ & _ & _ & _ & -> & _). rewrite player_at_bought.
    destruct (decide _); [simpl | congruence]. now destruct (_ =? 0).
  - intros _. destruct Hacc as (_ & _ & (score & _ & ->) & _).
    assert (Hp : totalScore (player_at (dropped e score s) (msg_sender e))
                 = FHE_add (totalScore (player_at s (msg_sender e))) score).
    { rewrite player_at_dropped; simpl. now destruct (decide _). }
    rewrite Hp. unfold dropped; simpl.
    rewrite !elem_of_app, !elem_of_cons. auto.
  - intros _. destruct Hacc as (_ & _ & -> & _). rewrite player_at_played.
    now destruct (decide _).
  - intros _. destruct Hacc as (_ & _ & _ & -> & _). reflexivity.
  - intros _. destruct Hacc as (_ & _ & -> & _). reflexivity.
Qed.

Lemma decryptable_run (txs : list Tx) (s : State) (a : address) :
  decryptable s a \/ dropped_during a s txs = true -> decryptable (run s txs) a.
Proof.
  revert s. induction txs as [|tx txs IH]; intros s Hcase; simpl.
  - destruct Hcase as [H|H]; [exact H | discriminate].
  - apply IH. unfold dropped_during in *; simpl in Hcase.
    destruct (score_step s tx a) as [Hdrop Hkeep].
    destruct (sent_by a tx && is_drop tx && accepted s tx) eqn:Hd.
    + left. now apply Hdrop.
    + destruct Hcase as [[H1 H2]|H]; [left | right; exact H].
      unfold decryptable. rewrite (Hkeep eq_refl). split; now apply acl_step.
Qed.

(** X15: in a deployed contract the score handle of an account is the
    zero (uninitialised) handle until the account's first accepted
    [dropBall] -- [playTurn], check-ins and purchases never write it -- and
    from then on the account and the contract itself always hold access to
    the account's current score handle. *)
Theorem score_stays_decryptable (deployer : address) (txs : list Tx) (a : address) :
  let s := run (constructor deployer) txs in
  (dropped_during a (constructor deployer) txs = false -> getPlayerScore s a = 0) /\
  (dropped_during a (constructor deployer) txs = true ->
     (getPlayerScore s a, a) ∈ acl s /\ (getPlayerScore s a, this) ∈ acl s).
Proof.
  intros s. subst s. split.
  - assert (H0 : getPlayerScore (constructor deployer) a = 0).
    { unfold getPlayerScore, player_at; simpl. now rewrite lookup_empty. }
    revert H0. generalize (constructor deployer) as s.
    induction txs as [|tx txs IH]; intros s Hs Hno; simpl; [exact Hs|].
    unfold dropped_during in Hno; simpl in Hno.
    apply orb_false_iff in Hno as [Hno1 Hno2].
    apply IH; [|exact Hno2].
    destruct (score_step s tx a) as [_ Hkeep]. now rewrite (Hkeep Hno1).
  - intros Hd. apply decryptable_run. now right.
Qed.

End Scores.

Section LeaderboardOrder.

Lemma for_loop_fixed {A : Type} (body : nat -> A -> Result A) (lo hi : nat) (a : A) :
  (lo <= hi)%nat ->
  (forall i, (lo <= i < hi)%nat -> body i a = Ok a) ->
  for_loop lo hi body a = Ok a.
Proof.
  intros Hle Hbody.
  destruct (for_loop_inv (fun _ x => x = a) body lo hi a Hle eq_refl) as (a' & Hrun & ->).
  - intros i x Hi ->. exists a. split; [now apply Hbody | reflexivity].
  - exact Hrun.
Qed.

(** X16: on a registry whose entries are already in descending order of
    [gamesPlayed], the sort exchanges nothing: [getLeaderboard] returns the
    entries in registry order, ties included. *)
Theorem leaderboard_keeps_sorted_registry (s : State) :
  descending (map (entry_of s) (playerAddresses s)) ->
  getLeaderboard s = Ok (map (entry_of s) (playerAddresses s)).
Proof.
  intros Hdesc. unfold getLeaderboard.
  destruct (fill_loop_entries s) as (m & -> & Hlen & Hfill); simpl.
  rewrite <- Hfill in Hdesc.
  assert (Hsame : sort_pass (length (playerAddresses s)) m = Ok m).
  { unfold sort_pass. apply for_loop_fixed; [lia|]. intros i Hi.
    apply for_loop_fixed; [lia|]. intros j Hj.
    rewrite compare_swap_exchange by lia. unfold exchange.
    destruct (lookup_lt_is_Some_2 (slots m) i) as [ri Hri]; [lia|].
    destruct (lookup_lt_is_Some_2 (slots m) j) as [rj Hrj]; [lia|].
    rewrite Hri, Hrj.
    assert (Hle : key_of (heap m) rj <= key_of (heap m) ri).
    { apply (Hdesc i j (deref m ri) (deref m rj)); [lia | |].
      - rewrite lookup_map, Hri. reflexivity.
      - rewrite lookup_map, Hrj. reflexivity. }
    apply Z.ltb_ge in Hle. rewrite Hle. now destruct m. }
  rewrite Hsame; simpl. now rewrite Hfill.
Qed.

(** X17: the leaderboard has one entry per registered address, so it is
    empty exactly when nobody has joined; and its first entry belongs to a
    registered address that has played at least as many games as any other
    registered address. *)
Theorem leaderboard_top_is_best (s : State) (lb : list LeaderboardEntry.t) :
  getLeaderboard s = Ok lb ->
  Z.of_nat (length lb) = getTotalPlayers s /\
  (lb = [] <-> playerAddresses s = []) /\
  forall top rest, lb = top :: rest ->
    LeaderboardEntry.playerAddress top ∈ playerAddresses s /\
    LeaderboardEntry.gamesPlayed top
      = gamesPlayed (player_at s (LeaderboardEntry.playerAddress top)) /\
    forall a, a ∈ playerAddresses s ->
      gamesPlayed (player_at s a) <= LeaderboardEntry.gamesPlayed top.
Proof.
  intros Hrun. destruct (getLeaderboard_sorted s) as (lb' & Hrun' & Hperm & Hdesc).
  rewrite Hrun in Hrun'. injection Hrun' as <-.
  assert (Hlen : length lb = length (playerAddresses s)).
  { apply Permutation_length in Hperm. now rewrite length_map in Hperm. }
  split; [unfold getTotalPlayers; now rewrite Hlen|]. split.
  - split; intros H.
    + rewrite H in Hlen. now destruct (playerAddresses s).
    + rewrite H in Hlen. now destruct lb.
  - intros top rest ->. 
    assert (Htop : In top (map (entry_of s) (playerAddresses s))).
    { eapply Permutation_in; [exact Hperm | now left]. }
    apply in_map_iff in Htop as (b & <- & Hb). simpl.
    split; [now apply list_elem_of_In|]. split; [reflexivity|].
    intros a Ha.
    assert (Hin : In (entry_of s a) (entry_of s b :: rest)).
    { eapply Permutation_in; [symmetry; exact Hperm|].
      apply in_map. now apply list_elem_of_In. }
    destruct Hin as [Heq|Hin].
    + apply (f_equal LeaderboardEntry.gamesPlayed) in Heq. simpl in Heq. lia.
    + apply list_elem_of_In, list_elem_of_lookup in Hin as (q & Hq).
      apply (Hdesc 0%nat (S q) (entry_of s b) (entry_of s a)); [lia | reflexivity | exact Hq].
Qed.

End LeaderboardOrder.

Section Ledger.
Context {chain : Chain}.

(** X18: the registry of a deployed contract lists exactly the accounts
    that have joined: an address is in [playerAddresses] if and only if one
    of its check-ins or purchases was accepted. *)
Theorem registry_lists_the_joined (deployer : address) (txs : list Tx) (a : address) :
  a ∈ playerAddresses (run (constructor deployer) txs) <->
  joined a (constructor deployer) txs = true.
Proof.
  pose proof (ledger_inv_run txs (constructor deployer) (ledger_inv_constructor deployer))
    as [_ Hinv].
  destruct (Hinv a) as (_ & Hreg & _); cbv zeta in Hreg. rewrite Hreg.
  pose proof (not_joined_iff deployer txs a) as Hj.
  destruct (joined a (constructor deployer) txs); intuition congruence.
Qed.

Lemma turns_nonneg_step (s : State) (tx : Tx) (a : address) :
  0 <= availableTurns (player_at s a) ->
  0 <= availableTurns (player_at (post (transact s tx)) a).
Proof.
  intros Hpos. destruct (accepted_or_rejected s tx) as [Hok|Hko].
  2: { apply transact_rejected in Hko as [-> _]. exact Hpos. }
  destruct (decide (a = msg_sender (tx_env tx))) as [->|Hne].
  2: { now rewrite transact_other_player by exact Hne. }
  apply transact_accepted in Hok. unfold effect_of in Hok.
  destruct tx as [e c]; simpl in *. destruct c; simpl in Hok.
  - destruct Hok as (_ & _ & -> & _). rewrite player_at_checked_in.
    destruct (decide _); [simpl; unfold DAILY_FREE_TURNS; lia | congruence].
  - destruct Hok as (Hn & _ & _ & _ & -> & _). rewrite player_at_bought.
    destruct (decide _); [simpl; lia | congruence].
  - destruct Hok as (Hturn & _ & (score & _ & ->) & _). rewrite player_at_dropped.
    destruct (decide _); [simpl; lia | congruence].
  - destruct Hok as (Hturn & _ & -> & _). rewrite player_at_played.
    destruct (decide _); [simpl; lia | congruence].
  - destruct Hok as (_ & _ & _ & -> & _). exact Hpos.
  - destruct Hok as (_ & _ & -> & _). exact Hpos.
Qed.

(** X19: no game is played without a turn: in a deployed contract, after
    any history, an account's [gamesPlayed] is at most the number of turns
    its accepted check-ins and purchases granted it. *)
Theorem no_play_without_a_turn (deployer : address) (txs : list Tx) (a : address) :
  gamesPlayed (player_at (run (constructor deployer) txs) a)
    <= granted a (constructor deployer) txs.
Proof.
  set (s0 := constructor deployer).
  assert (Hzero : player_at s0 a = zero_player).
  { unfold s0, player_at; simpl. now rewrite lookup_empty. }
  assert (Hpos : 0 <= availableTurns (player_at (run s0 txs) a)).
  { assert (H0 : 0 <= availableTurns (player_at s0 a)) by (rewrite Hzero; simpl; lia).
    revert H0. generalize s0 as s.
    induction txs as [|tx txs IH]; intros s Hs; simpl; [exact Hs|].
    apply IH. now apply turns_nonneg_step. }
  destruct (turns_are_conserved_from s0 txs a) as [Hg Ht].
  rewrite Hzero in Hg, Ht; simpl in Hg, Ht. lia.
Qed.

(** X20: the events of an accepted call report the state it leaves:
    [CheckedIn] carries the 3 turns granted and the new [lastCheckInTime];
    [GamePlayed] and [ScoreUpdated] carry the caller's [availableTurns] and
    [gamesPlayed] as they stand after the play; [TurnsPurchased] carries the
    count and the payment credited; [Withdrawal] carries the owner and the
    whole former balance; [transferOwnership] logs nothing. *)
Theorem events_report_the_state (s : State) (tx : Tx) :
  let sender := msg_sender (tx_env tx) in
  let s' := post (transact s tx) in
  succeeds s tx ->
  logs (transact s tx) =
    match tx_call tx with
    | DailyCheckIn =>
        [CheckedIn sender (availableTurns (player_at s' sender)
                           - availableTurns (player_at s sender))
           (lastCheckInTime (player_at s' sender))]
    | BuyTurns turnCount msg_value =>
        [TurnsPurchased sender
           (availableTurns (player_at s' sender) - availableTurns (player_at s sender))
           (balance s' - balance s)]
    | DropBall _ _ | PlayTurn =>
        [GamePlayed sender (availableTurns (player_at s' sender));
         ScoreUpdated sender (gamesPlayed (player_at s' sender))]
    | Withdraw => [Withdrawal (owner s) (balance s - balance s')]
    | TransferOwnership _ => []
    end.
Proof.
  intros sender s' Hok. subst sender s'.
  apply transact_accepted in Hok. unfold effect_of in Hok.
  destruct tx as [e c]; simpl in *. destruct c; simpl in Hok.
  - destruct Hok as (_ & _ & -> & ->). rewrite player_at_checked_in.
    destruct (decide _); [simpl | congruence]. do 2 f_equal. unfold DAILY_FREE_TURNS. lia.
  - destruct Hok as (_ & _ & _ & _ & -> & ->). rewrite player_at_bought.
    destruct (decide _); [simpl | congruence]. do 2 f_equal; lia.
  - destruct Hok as (_ & _ & (score & _ & ->) & ->). rewrite player_at_dropped.
    destruct (decide _); [reflexivity | congruence].
  - destruct Hok as (_ & _ & -> & ->). rewrite player_at_played.
    destruct (decide _); [reflexivity | congruence].
  - destruct Hok as (_ & _ & _ & -> & ->). simpl. do 2 f_equal. lia.
  - destruct Hok as (_ & _ & _ & ->). reflexivity.
Qed.

End Ledger.

(** ** The further properties on concrete inputs *)

(** X2 on a concrete input: carol's record after the tied history. *)
Lemma storage_stays_in_range_witness : player_in_range (player_at tied carol).
Proof.
  exact (storage_stays_in_range (chain := clear_chain) tied carol tied_reachable).
Defined.

(** X6 on a concrete input: one second after her check-in alice is told to
    wait, a day later she is not. *)
Lemma check_in_closes_the_day_witness :
  canCheckIn (post (transact (chain := clear_chain) (constructor house)
                      (call alice 100000 DailyCheckIn))) 100001 alice = Ok false.
Proof.
  assert (Hok : succeeds (chain := clear_chain) (constructor house)
                  (call alice 100000 DailyCheckIn)) by reflexivity.
  pose proof (check_in_closes_the_day (chain := clear_chain) (constructor house)
                alice 100000 100001 Hok) as W.
  cbv zeta in W. destruct W as [Hfit _].
  assert (Hmax : 100000 + SECONDS_PER_DAY <= MAX_UINT256) by (vm_compute; discriminate).
  destruct (Hfit Hmax) as [Hcan _]. exact Hcan.
Defined.

(** X8 on a concrete input: one turn more than can be priced. *)
Lemma oversized_purchase_panics_witness :
  failure (transact (chain := clear_chain) (constructor house)
             (call alice 100000 (BuyTurns (max_purchase + 1) 0))) = Some (Panic 0x11).
Proof.
  apply (oversized_purchase_panics (chain := clear_chain)).
  vm_compute. reflexivity.
Defined.

(** X14 on a concrete input: carol's third turn, played either way. *)
Lemma play_variants_agree_witness :
  logs (transact (chain := clear_chain) tied (call carol 100005 (DropBall 50 [])))
  = logs (transact (chain := clear_chain) tied (call carol 100005 PlayTurn)).
Proof.
  assert (Hproof : is_Some (FHE_fromExternal (Chain := clear_chain) carol 50 []))
    by (eexists; reflexivity).
  pose proof (play_variants_agree (chain := clear_chain) tied carol 100005 50 [] Hproof) as W.
  cbv zeta in W. destruct W as (_ & Hlogs & _). exact Hlogs.
Defined.

Lemma ranked_descending : descending (map (entry_of ranked) (playerAddresses ranked)).
Proof.
  change (map (entry_of ranked) (playerAddresses ranked))
    with [LeaderboardEntry.mk alice 1; LeaderboardEntry.mk bob 0; LeaderboardEntry.mk carol 0].
  intros [|[|[|p]]] [|[|[|q]]] x y Hpq; simpl; try discriminate; try lia;
    intros [= <-] [= <-]; simpl; lia.
Qed.

(** X16 on a concrete input: bob and carol are tied and keep their order. *)
Lemma leaderboard_keeps_sorted_registry_witness :
  getLeaderboard ranked =
    Ok [LeaderboardEntry.mk alice 1; LeaderboardEntry.mk bob 0; LeaderboardEntry.mk carol 0].
Proof.
  exact (leaderboard_keeps_sorted_registry ranked ranked_descending).
Defined.

(** X17 on a concrete input: carol, who played twice, leads the tied
    leaderboard. *)
Lemma leaderboard_top_is_best_witness :
  gamesPlayed (player_at tied alice) <= 2 /\ gamesPlayed (player_at tied bob) <= 2.
Proof.
  assert (Hrun : getLeaderboard tied =
    Ok [LeaderboardEntry.mk carol 2; LeaderboardEntry.mk bob 1; LeaderboardEntry.mk alice 1])
    by reflexivity.
  destruct (leaderboard_top_is_best tied _ Hrun) as (_ & _ & Htop).
  destruct (Htop _ _ eq_refl) as (_ & _ & Hbest).
  assert (Halice : alice ∈ playerAddresses tied).
  { change (playerAddresses tied) with [alice; bob; carol].
    apply list_elem_of_In. simpl. auto. }
  assert (Hbob : bob ∈ playerAddresses tied).
  { change (playerAddresses tied) with [alice; bob; carol].
    apply list_elem_of_In. simpl. auto. }
  split; [exact (Hbest alice Halice) | exact (Hbest bob Hbob)].
Defined.

(** X20 on a concrete input: the event of a first check-in. *)
Lemma events_report_the_state_witness :
  logs (transact (chain := clear_chain) (constructor house) (call alice 100000 DailyCheckIn))
  = [CheckedIn alice 3 100000].
Proof.
  assert (Hok : succeeds (chain := clear_chain) (constructor house)
                  (call alice 100000 DailyCheckIn)) by reflexivity.
  exact (events_report_the_state (chain := clear_chain) (constructor house)
           (call alice 100000 DailyCheckIn) Hok).
Defined.
